(** * Avoid the Enemy: a shallow embedding of [main.py]

    The game of [main.py] is a single loop over frames.  Each frame reads a
    time step [dt] and a key snapshot, moves the player square and the enemy
    circle, derives the score, collects coins and decides the end of the
    match.  This file embeds that code as Rocq functions and states the
    properties of the design document against it.

    Number model.  Python integers are [Z].  Python floats ([dt], the enemy
    position and velocity, the two timers) are exact rationals [Q]: the
    rounding of IEEE arithmetic is not modelled.  The properties are
    therefore stated so that rounding to nearest cannot break them: they
    rest on comparisons with integers, on sign changes, on truncation and
    on the order of sums and products, which rounding keeps, and never on
    the exact value of a sum or a product of floats.  Where an equation
    between floats is needed ([consistent]) it is a hypothesis.
    [pygame.Rect] stores C integers: [Player.update] is the arithmetic of
    a call that returns, and [Player.update_c] adds the [TypeError] that
    an assignment outside the C range raises. *)

From Stdlib Require Import ZArith QArith Qround Qabs Bool List Lia.
From Stdlib Require Import Reals Qreals.
From Stdlib Require Import Lqa.
Import ListNotations.

Local Open Scope Z_scope.

(** ** Game settings *)

Definition SCREEN_WIDTH : Z := 800.
Definition SCREEN_HEIGHT : Z := 600.
Definition PLAYER_SIZE : Z := 40.
Definition PLAYER_SPEED : Z := 300.
Definition ENEMY_RADIUS : Z := 25.
Definition ENEMY_SPEED : Z := 180.
Definition COIN_RADIUS : Z := 7.
Definition NUM_COINS : nat := 5.
Definition START_TIME : Z := 45.
Definition WIN_SCORE : Z := 20.

(** ** Python numbers: comparison, [max], [min], [int] *)

(** The comparisons of Python numbers, as far as the game uses them: a
    strict order that is decidable.  [clamp] is called on integers (the
    rectangle of the player) and on floats (the enemy centre). *)
Class PyOrd (A : Type) : Type := { ltb : A -> A -> bool }.

Definition Qltb (a b : Q) : bool := negb (Qle_bool b a).

#[export] Instance PyOrd_Z : PyOrd Z := {| ltb := Z.ltb |}.
#[export] Instance PyOrd_Q : PyOrd Q := {| ltb := Qltb |}.

(** [max(a, b)] keeps its first argument unless the second is greater;
    [min(a, b)] keeps its first argument unless the second is smaller. *)
Definition py_max {A} `{PyOrd A} (a b : A) : A := if ltb a b then b else a.
Definition py_min {A} `{PyOrd A} (a b : A) : A := if ltb b a then b else a.

(** [clamp(value, minv, maxv)], line 48. *)
Definition clamp {A} `{PyOrd A} (value minv maxv : A) : A :=
  py_max minv (py_min value maxv).

(** [int(x)] of a float: truncation toward zero. *)
Definition py_int (q : Q) : Z := Z.quot (Qnum q) (Zpos (Qden q)).

(** ** [pygame.Rect] *)

Record Rect : Type := mkRect {
  left : Z;
  top : Z;
  width : Z;
  height : Z
}.

Definition right (r : Rect) : Z := left r + width r.
Definition bottom (r : Rect) : Z := top r + height r.
Definition centerx (r : Rect) : Z := left r + Z.quot (width r) 2.
Definition centery (r : Rect) : Z := top r + Z.quot (height r) 2.

(** [rect.center = (x, y)]: the size is kept, the corner moves. *)
Definition set_center (r : Rect) (x y : Z) : Rect :=
  {| left := x - Z.quot (width r) 2;
     top := y - Z.quot (height r) 2;
     width := width r;
     height := height r |}.

(** [rect_circle_collide(rect, circle_pos, circle_radius)], line 51.  The
    circle centre is a pair of floats, the edges of the rectangle are
    integers. *)
Definition rect_circle_collide (rect : Rect) (cx cy : Q) (circle_radius : Z)
  : bool :=
  let closest_x := clamp cx (inject_Z (left rect)) (inject_Z (right rect)) in
  let closest_y := clamp cy (inject_Z (top rect)) (inject_Z (bottom rect)) in
  let dx := (cx - closest_x)%Q in
  let dy := (cy - closest_y)%Q in
  Qle_bool (dx * dx + dy * dy)
           (inject_Z (circle_radius * circle_radius)).

(** ** Drawing

    The surface is the sequence of the shapes drawn on it, in order.
    [pygame.draw.rect(surf, color, rect)] and
    [pygame.draw.circle(surf, color, center, radius)] each add one. *)

Definition Color : Type := (Z * Z * Z)%type.

Definition PLAYER_COLOR : Color := (70, 130, 180).
Definition ENEMY_COLOR : Color := (200, 50, 50).
Definition COIN_COLOR : Color := (240, 200, 20).

Inductive Shape : Type :=
| DrawRect (color : Color) (r : Rect)
| DrawCircle (color : Color) (cx cy : Z) (radius : Z).

(** The attributes of a [pygame.Rect] are C integers of 32 bits: an
    assignment of a value outside their range raises [TypeError] and
    leaves the attribute as it was. *)
Definition C_INT_MIN : Z := -2147483648.
Definition C_INT_MAX : Z := 2147483647.

Definition fits_c_int (v : Z) : bool :=
  (C_INT_MIN <=? v) && (v <=? C_INT_MAX).

(** ** Player *)

(** The eight keys [Player.update] reads from [pygame.key.get_pressed()]. *)
Record Keys : Type := mkKeys {
  K_LEFT : bool; K_a : bool;
  K_RIGHT : bool; K_d : bool;
  K_UP : bool; K_w : bool;
  K_DOWN : bool; K_s : bool
}.

Definition no_keys : Keys := mkKeys false false false false false false false false.

Module Player.

Record t : Type := mk { rect : Rect }.

(** [Player.__init__(x, y)], line 61. *)
Definition init (x y : Z) : t :=
  {| rect := set_center (mkRect 0 0 PLAYER_SIZE PLAYER_SIZE) x y |}.

(** The literal [0.70710678] of line 80. *)
Definition factor : Q := 70710678 # 100000000.

(** [Player.update(dt, keys)], line 65: the rectangle a call that returns
    leaves.  [update_c] below is the same call with the assignments that
    raise. *)
Definition update (dt : Q) (keys : Keys) (p : t) : t :=
  let dx := 0 in
  let dy := 0 in
  let dx := if K_LEFT keys || K_a keys then dx - 1 else dx in
  let dx := if K_RIGHT keys || K_d keys then dx + 1 else dx in
  let dy := if K_UP keys || K_w keys then dy - 1 else dy in
  let dy := if K_DOWN keys || K_s keys then dy + 1 else dy in
  let diagonal := negb (dx =? 0) && negb (dy =? 0) in
  let fx := if diagonal then (inject_Z dx * factor)%Q else inject_Z dx in
  let fy := if diagonal then (inject_Z dy * factor)%Q else inject_Z dy in
  let r := rect p in
  let x1 := left r + py_int (fx * inject_Z PLAYER_SPEED * dt)%Q in
  let y1 := top r + py_int (fy * inject_Z PLAYER_SPEED * dt)%Q in
  {| rect :=
       {| left := clamp x1 0 (SCREEN_WIDTH - width r);
          top := clamp y1 0 (SCREEN_HEIGHT - height r);
          width := width r;
          height := height r |} |}.

(** The players after each call of a sequence of [update] calls. *)
Fixpoint trace (inputs : list (Q * Keys)) (p : t) : list t :=
  match inputs with
  | [] => []
  | (dt, keys) :: rest =>
      let p' := update dt keys p in
      p' :: trace rest p'
  end.

(** The avatar lies inside the 800 x 600 playfield. *)
Definition inside_playfield (p : t) : Prop :=
  0 <= left (rect p) /\ left (rect p) + width (rect p) <= 800 /\
  0 <= top (rect p) /\ top (rect p) + height (rect p) <= 600.

(** How a call ends: it returns, or an assignment to the rectangle
    raises; either way the player is left in some state. *)
Inductive outcome : Type :=
| Returned (p : t)
| Raised (p : t).

Definition state (o : outcome) : t :=
  match o with
  | Returned p => p
  | Raised p => p
  end.

(** [Player.update(dt, keys)], line 65, with the four assignments to the
    rectangle in the order of lines 84 to 89, each one raising when its
    value does not fit. *)
Definition update_c (dt : Q) (keys : Keys) (p : t) : outcome :=
  let dx := 0 in
  let dy := 0 in
  let dx := if K_LEFT keys || K_a keys then dx - 1 else dx in
  let dx := if K_RIGHT keys || K_d keys then dx + 1 else dx in
  let dy := if K_UP keys || K_w keys then dy - 1 else dy in
  let dy := if K_DOWN keys || K_s keys then dy + 1 else dy in
  let diagonal := negb (dx =? 0) && negb (dy =? 0) in
  let fx := if diagonal then (inject_Z dx * factor)%Q else inject_Z dx in
  let fy := if diagonal then (inject_Z dy * factor)%Q else inject_Z dy in
  let r := rect p in
  let x1 := left r + py_int (fx * inject_Z PLAYER_SPEED * dt)%Q in
  if negb (fits_c_int x1) then Raised p else
  let r1 := mkRect x1 (top r) (width r) (height r) in
  let y1 := top r + py_int (fy * inject_Z PLAYER_SPEED * dt)%Q in
  if negb (fits_c_int y1) then Raised {| rect := r1 |} else
  let r2 := mkRect x1 y1 (width r) (height r) in
  let x2 := clamp x1 0 (SCREEN_WIDTH - width r) in
  if negb (fits_c_int x2) then Raised {| rect := r2 |} else
  let r3 := mkRect x2 y1 (width r) (height r) in
  let y2 := clamp y1 0 (SCREEN_HEIGHT - height r) in
  if negb (fits_c_int y2) then Raised {| rect := r3 |} else
  Returned {| rect := mkRect x2 y2 (width r) (height r) |}.

(** The outcomes of a sequence of [update] calls, one after the other;
    the exception of a call that raises ends the sequence. *)
Fixpoint calls (inputs : list (Q * Keys)) (p : t) : list outcome :=
  match inputs with
  | [] => []
  | (dt, keys) :: rest =>
      match update_c dt keys p with
      | Returned p' => Returned p' :: calls rest p'
      | Raised p' => [Raised p']
      end
  end.

(** [Player.draw(surf)], line 91. *)
Definition draw (p : t) : list Shape := [DrawRect PLAYER_COLOR (rect p)].

End Player.

(** ** The module [random] and the two functions of [math]

    The generator is a source of raw integers that are read in order.
    [random.randint(a, b)] reduces the next raw integer into [a..b],
    [random.random()] reduces it into a 53-bit fraction of [0, 1). *)

Record Random : Type := mkRandom { raw : nat -> Z; pos : nat }.

Definition Rand (A : Type) : Type := Random -> A * Random.

Definition ret {A} (a : A) : Rand A := fun g => (a, g).

Definition bind {A B} (m : Rand A) (k : A -> Rand B) : Rand B :=
  fun g => let (a, g') := m g in k a g'.

Notation "x <- m ;; k" := (bind m (fun x => k))
  (at level 61, m at next level, right associativity).

Definition next_raw : Rand Z :=
  fun g => (raw g (pos g), {| raw := raw g; pos := S (pos g) |}).

Definition randint (a b : Z) : Rand Z :=
  r <- next_raw ;; ret (a + r mod (b - a + 1)).

Definition random : Rand Q :=
  r <- next_raw ;; ret (Qmake (r mod 2 ^ 53) (2 ^ 53)).

Fixpoint replicateM {A} (n : nat) (m : Rand A) : Rand (list A) :=
  match n with
  | O => ret []
  | S n' => a <- m ;; l <- replicateM n' m ;; ret (a :: l)
  end.

(** [math.sin] and [math.cos] are not part of the program: they are taken
    as parameters. *)
Class Libm : Type := { libm_sin : Q -> Q; libm_cos : Q -> Q }.

Definition math_sin `{Libm} (a : Q) : Q := libm_sin a.
Definition math_cos `{Libm} (a : Q) : Q := libm_cos a.

(** ** Enemy *)

Module Enemy.

Record t : Type := mk { x : Q; y : Q; vx : Q; vy : Q }.

(** [Enemy.__init__()], line 95. *)
Definition init `{Libm} : Rand t :=
  x0 <- randint ENEMY_RADIUS (SCREEN_WIDTH - ENEMY_RADIUS) ;;
  y0 <- randint ENEMY_RADIUS (SCREEN_HEIGHT - ENEMY_RADIUS) ;;
  u <- random ;;
  let angle := (u * 2 * (314159265 # 100000000))%Q in
  ret {| x := inject_Z x0;
         y := inject_Z y0;
         vx := (inject_Z ENEMY_SPEED * math_cos angle)%Q;
         vy := (inject_Z ENEMY_SPEED * math_sin angle)%Q |}.

(** [Enemy.update(dt)], line 102: the move, then the four wall tests in
    the order of the source. *)
Definition update (dt : Q) (e : t) : t :=
  let x1 := (x e + vx e * dt)%Q in
  let y1 := (y e + vy e * dt)%Q in
  let '(x2, vx2) :=
    if Qle_bool x1 (inject_Z ENEMY_RADIUS)
    then (inject_Z ENEMY_RADIUS, (vx e * (-1 # 1))%Q) else (x1, vx e) in
  let '(x3, vx3) :=
    if Qle_bool (inject_Z (SCREEN_WIDTH - ENEMY_RADIUS)) x2
    then (inject_Z (SCREEN_WIDTH - ENEMY_RADIUS), (vx2 * (-1 # 1))%Q)
    else (x2, vx2) in
  let '(y2, vy2) :=
    if Qle_bool y1 (inject_Z ENEMY_RADIUS)
    then (inject_Z ENEMY_RADIUS, (vy e * (-1 # 1))%Q) else (y1, vy e) in
  let '(y3, vy3) :=
    if Qle_bool (inject_Z (SCREEN_HEIGHT - ENEMY_RADIUS)) y2
    then (inject_Z (SCREEN_HEIGHT - ENEMY_RADIUS), (vy2 * (-1 # 1))%Q)
    else (y2, vy2) in
  {| x := x3; y := y3; vx := vx3; vy := vy3 |}.

(** The enemies after each call of a sequence of [update] calls. *)
Fixpoint trace (dts : list Q) (e : t) : list t :=
  match dts with
  | [] => []
  | dt :: rest => let e' := update dt e in e' :: trace rest e'
  end.

(** The speed magnitude, a real number. *)
Definition speed (e : t) : R := sqrt (Q2R (vx e * vx e + vy e * vy e)).

Definition nondegenerate (e : t) : Prop :=
  ~ (vx e == 0 /\ vy e == 0)%Q.

Definition contained (e : t) : Prop :=
  (25 <= x e /\ x e <= 775 /\ 25 <= y e /\ y e <= 575)%Q.

(** [Enemy.draw(surf)], line 120: the centre is truncated to integers. *)
Definition draw (e : t) : list Shape :=
  [DrawCircle ENEMY_COLOR (py_int (x e)) (py_int (y e)) ENEMY_RADIUS].

End Enemy.

(** ** Coin *)

Module Coin.

Record t : Type := mk { x : Z; y : Z; collected : bool }.

(** [Coin.respawn()], line 127: the three attributes are overwritten. *)
Definition respawn : Rand t :=
  let margin := 20 in
  x0 <- randint margin (SCREEN_WIDTH - margin) ;;
  y0 <- randint margin (SCREEN_HEIGHT - margin) ;;
  ret {| x := x0; y := y0; collected := false |}.

(** [Coin.__init__()], line 124. *)
Definition init : Rand t := respawn.

(** [Coin.draw(surf)], line 133: a collected coin draws nothing. *)
Definition draw (c : t) : list Shape :=
  if negb (collected c) then [DrawCircle COIN_COLOR (x c) (y c) COIN_RADIUS]
  else [].

End Coin.

(** ** Session: the local variables of [run_game] *)

Record Session : Type := mkSession {
  player : Player.t;
  enemy : Enemy.t;
  coins : list Coin.t;
  score : Z;
  elapsed_survival : Q;
  time_left : Q;
  game_over : bool;
  game_won : bool;
  rng : Random
}.

(** The test of the [while] of [fix_coins_initial], line 171. *)
Definition too_close (p : Player.t) (c : Coin.t) : bool :=
  (Z.abs (Coin.x c - centerx (Player.rect p)) <? 60) &&
  (Z.abs (Coin.y c - centery (Player.rect p)) <? 60).

(** The [while] loop of line 171 for one coin.  The loop of the source has
    no bound; [fuel] bounds the number of calls of [respawn], and [None]
    says that the bound was reached with the coin still too close. *)
Fixpoint fix_coin (fuel : nat) (p : Player.t) (c : Coin.t) (g : Random)
  : option (Coin.t * Random) :=
  if too_close p c then
    match fuel with
    | O => None
    | S fuel' => let (c', g') := Coin.respawn g in fix_coin fuel' p c' g'
    end
  else Some (c, g).

(** [fix_coins_initial()], line 169: the coins in order, each with its own
    loop. *)
Fixpoint fix_coins_initial (fuel : nat) (p : Player.t) (cs : list Coin.t)
  (g : Random) : option (list Coin.t * Random) :=
  match cs with
  | [] => Some ([], g)
  | c :: rest =>
      match fix_coin fuel p c g with
      | None => None
      | Some (c', g1) =>
          match fix_coins_initial fuel p rest g1 with
          | None => None
          | Some (rest', g2) => Some (c' :: rest', g2)
          end
      end
  end.

(** Lines 158 to 173, and again lines 189 to 197: new game objects, the
    counters reset, the coins moved away from the player. *)
Definition new_session `{Libm} (fuel : nat) (g : Random) : option Session :=
  let p := Player.init (SCREEN_WIDTH / 2) (SCREEN_HEIGHT / 2) in
  let (e, g1) := Enemy.init g in
  let (cs, g2) := replicateM NUM_COINS Coin.init g1 in
  match fix_coins_initial fuel p cs g2 with
  | None => None
  | Some (cs', g3) =>
      Some {| player := p; enemy := e; coins := cs';
              score := 0; elapsed_survival := 0; time_left := inject_Z START_TIME;
              game_over := false; game_won := false; rng := g3 |}
  end.

(** The [KEYDOWN] event of [K_r], line 187: a restart when the match is
    over, nothing otherwise. *)
Definition keydown_r `{Libm} (fuel : nat) (s : Session) : option Session :=
  if game_over s || game_won s then new_session fuel (rng s) else Some s.

(** [sum(1 for c in coins if c.collected)], line 214. *)
Definition count_collected (cs : list Coin.t) : Z :=
  Z.of_nat (length (filter Coin.collected cs)).

(** The body of the collection loop for one coin, lines 218 to 224. *)
Definition collect (p : Player.t) (c : Coin.t) : Coin.t :=
  if negb (Coin.collected c) then
    let px := centerx (Player.rect p) in
    let py := centery (Player.rect p) in
    let dx := px - Coin.x c in
    let dy := py - Coin.y c in
    if dx * dx + dy * dy <=? (COIN_RADIUS + PLAYER_SIZE / 2) ^ 2
    then {| Coin.x := Coin.x c; Coin.y := Coin.y c; Coin.collected := true |}
    else c
  else c.

(** Lines 227 to 230: when every coin is collected, each one respawns. *)
Definition respawn_if_all (cs : list Coin.t) : Rand (list Coin.t) :=
  if forallb Coin.collected cs
  then replicateM (length cs) Coin.respawn
  else ret cs.

(** The test of line 233 on the moved player and enemy. *)
Definition hit (p : Player.t) (e : Enemy.t) : bool :=
  rect_circle_collide (Player.rect p) (Enemy.x e) (Enemy.y e) ENEMY_RADIUS.

(** Lines 232 to 246: the collision test, the timer test and the score
    test, in this order, on the two flags [(game_over, game_won)]. *)
Definition decide (is_hit : bool) (time_left' : Q) (score' : Z)
  (flags : bool * bool) : bool * bool :=
  let '(over, won) := flags in
  let over := if is_hit then true else over in
  let '(over, won) :=
    if Qle_bool time_left' 0 then
      if WIN_SCORE <=? score' then (over, true) else (true, won)
    else (over, won) in
  let won := if WIN_SCORE <=? score' then true else won in
  (over, won).

(** The score of line 214, from the new survival time and the flags the
    coins have when the line runs. *)
Definition frame_score (dt : Q) (s : Session) : Z :=
  py_int (elapsed_survival s + dt)%Q + count_collected (coins s).

(** One pass of the game loop for a frame of [dt] seconds, lines 201 to
    246: nothing moves once the match is over.  The frame is the one of a
    pass in which [player.update] returns, as it does for every time step
    up to [MAX_DT]. *)
Definition frame (dt : Q) (keys : Keys) (s : Session) : Session :=
  if game_over s || game_won s then s else
  let player' := Player.update dt keys (player s) in
  let enemy' := Enemy.update dt (enemy s) in
  let elapsed' := (elapsed_survival s + dt)%Q in
  let time_left' := (time_left s - dt)%Q in
  let score' := frame_score dt s in
  let collected' := map (collect player') (coins s) in
  let (coins', rng') := respawn_if_all collected' (rng s) in
  let '(over, won) :=
    decide (hit player' enemy') time_left' score' (game_over s, game_won s) in
  {| player := player'; enemy := enemy'; coins := coins';
     score := score'; elapsed_survival := elapsed'; time_left := time_left';
     game_over := over; game_won := won; rng := rng' |}.

(** ** The event loop of [run_game] *)

Inductive Key : Type := K_ESCAPE | K_r | K_other.

(** The events the loop of line 179 tells apart. *)
Inductive Event : Type :=
| QUIT
| KEYDOWN (key : Key)
| OtherEvent.

(** What a pass of the loop leads to: [sys.exit()], the next pass with a
    session, or a coin loop that used up its fuel. *)
Inductive Outcome : Type :=
| Exited
| Running (s : Session)
| OutOfFuel.

(** The [for event in pygame.event.get()] loop, lines 179 to 197. *)
Fixpoint handle_events `{Libm} (fuel : nat) (events : list Event)
  (s : Session) : Outcome :=
  match events with
  | [] => Running s
  | QUIT :: _ => Exited
  | KEYDOWN K_ESCAPE :: _ => Exited
  | KEYDOWN K_r :: rest =>
      match keydown_r fuel s with
      | Some s' => handle_events fuel rest s'
      | None => OutOfFuel
      end
  | _ :: rest => handle_events fuel rest s
  end.

(** One pass of the [while True] of line 176, up to the drawing: the
    events, then the frame. *)
Definition loop_pass `{Libm} (fuel : nat) (dt : Q) (events : list Event)
  (keys : Keys) (s : Session) : Outcome :=
  match handle_events fuel events s with
  | Running s1 => Running (frame dt keys s1)
  | o => o
  end.

(** Frames one after the other, with no event between them. *)
Fixpoint frames (inputs : list (Q * Keys)) (s : Session) : Session :=
  match inputs with
  | [] => s
  | (dt, keys) :: rest => frames rest (frame dt keys s)
  end.

(** Lines 251 to 257: the coins, the player, the enemy. *)
Definition draw_entities (s : Session) : list Shape :=
  flat_map Coin.draw (coins s) ++ Player.draw (player s) ++
  Enemy.draw (enemy s).

(** The number shown after [Time:], line 261: [int(max(0, time_left))]. *)
Definition hud_time (s : Session) : Z := py_int (py_max 0%Q (time_left s)).

(** ** The three states of the design document, read from the two flags *)

Definition Playing (s : Session) : Prop :=
  game_over s = false /\ game_won s = false.
Definition Lost (s : Session) : Prop := game_over s = true.
Definition Won (s : Session) : Prop := game_won s = true.


(** The player and the enemy the tests of a frame look at. *)
Definition moved_player (dt : Q) (keys : Keys) (s : Session) : Player.t :=
  Player.update dt keys (player s).

Definition moved_enemy (dt : Q) (s : Session) : Enemy.t :=
  Enemy.update dt (enemy s).

(** The coin [Coin.respawn] builds from the raw draws [i] and [i + 1]. *)
Definition coin_at (source : nat -> Z) (i : nat) : Coin.t :=
  {| Coin.x := 20 + source i mod 761;
     Coin.y := 20 + source (S i) mod 561;
     Coin.collected := false |}.

(** A source of raw draws lets the loop of line 171 end when, from every
    position of the sequence, some later pair of draws places a coin away
    from the spawn of the player. *)
Definition fair_source (source : nat -> Z) : Prop :=
  forall i : nat, exists k : nat,
    too_close (Player.init (SCREEN_WIDTH / 2) (SCREEN_HEIGHT / 2))
              (coin_at source (i + 2 * k)) = false.

(** The laws of number comparisons the proofs use. *)
Class PyOrdLaws (A : Type) `{PyOrd A} : Prop := {
  ltb_asym : forall a b : A, ltb a b = true -> ltb b a = false;
  ltb_trans : forall a b c : A,
    ltb a b = true -> ltb b c = true -> ltb a c = true
}.

Definition size_40 (p : Player.t) : Prop :=
  width (Player.rect p) = 40 /\ height (Player.rect p) = 40.

(** ** Sample inputs *)

Definition right_down : Keys :=
  mkKeys false false true false false false false true.

Definition right_only : Keys :=
  mkKeys false false true false false false false false.

Definition corner_enemy : Enemy.t :=
  {| Enemy.x := 26; Enemy.y := 574; Enemy.vx := (-108 # 1); Enemy.vy := 144 |}.

Definition sample_source (n : nat) : Z := 37 * Z.of_nat n + 11.

Definition far_coins : list Coin.t :=
  [ Coin.mk 100 100 false; Coin.mk 700 100 false; Coin.mk 100 500 false;
    Coin.mk 700 500 false; Coin.mk 400 550 false ].

(** The enemy three pixels short of touching the left edge of the player,
    on the frame in which the twentieth second completes. *)
Definition tie_session : Session :=
  {| player := Player.init 400 300;
     enemy := {| Enemy.x := 354; Enemy.y := 300;
                 Enemy.vx := 180; Enemy.vy := 0 |};
     coins := far_coins;
     score := 19;
     elapsed_survival := 1199 # 60;
     time_left := 1501 # 60;
     game_over := false; game_won := false;
     rng := mkRandom sample_source 13 |}.

Definition four_collected : list Coin.t :=
  [ Coin.mk 100 100 true; Coin.mk 700 100 true; Coin.mk 100 500 true;
    Coin.mk 700 500 true; Coin.mk 400 550 false ].

(** A match about to run out of time, with the survival time and the
    coins a test harness gave it; the enemy is far from the player. *)
Definition timeout_session (elapsed : Q) (cs : list Coin.t) : Session :=
  {| player := Player.init 400 300;
     enemy := {| Enemy.x := 100; Enemy.y := 100;
                 Enemy.vx := 180; Enemy.vy := 0 |};
     coins := cs;
     score := 0;
     elapsed_survival := elapsed;
     time_left := 1 # 120;
     game_over := false; game_won := false;
     rng := mkRandom sample_source 13 |}.

(** The player five pixels before the reach of the coins at (545, 300),
    moving right. *)
Definition approach_session (cs : list Coin.t) : Session :=
  {| player := {| Player.rect := mkRect 495 280 40 40 |};
     enemy := {| Enemy.x := 100; Enemy.y := 100;
                 Enemy.vx := 180; Enemy.vy := 0 |};
     coins := cs;
     score := 3;
     elapsed_survival := 3;
     time_left := 42;
     game_over := false; game_won := false;
     rng := mkRandom sample_source 13 |}.

Definition one_coin_ahead : list Coin.t :=
  [ Coin.mk 545 300 false; Coin.mk 700 100 false; Coin.mk 100 500 false;
    Coin.mk 700 500 false; Coin.mk 400 550 false ].

Definition all_coins_ahead : list Coin.t :=
  [ Coin.mk 545 300 false; Coin.mk 545 300 false; Coin.mk 545 300 false;
    Coin.mk 545 300 false; Coin.mk 545 300 false ].

(** A source whose first sixteen draws all place a coin on the centre of
    the screen (213460 is 380 modulo 761 and 280 modulo 561) and whose
    later draws place it in the corner (20, 20). *)
Definition stubborn_source (n : nat) : Z :=
  if (n <? 16)%nat then 213460 else 0.

Definition sample_libm : Libm :=
  {| libm_sin := fun _ => 0%Q; libm_cos := fun _ => 1%Q |}.

(** A match lost after seven and a half seconds. *)
Definition lost_session : Session :=
  {| player := {| Player.rect := mkRect 120 80 40 40 |};
     enemy := {| Enemy.x := 150; Enemy.y := 100;
                 Enemy.vx := 180; Enemy.vy := 0 |};
     coins := far_coins;
     score := 7;
     elapsed_survival := 15 # 2;
     time_left := 75 # 2;
     game_over := true; game_won := false;
     rng := mkRandom stubborn_source 0 |}.

(** What the restart scenario asks of the new session. *)
Definition freshly_started (s : Session) : Prop :=
  score s = 0 /\
  elapsed_survival s = 0%Q /\
  time_left s = 45%Q /\
  Playing s /\
  player s = Player.init 400 300 /\
  centerx (Player.rect (player s)) = 400 /\
  centery (Player.rect (player s)) = 300 /\
  length (coins s) = NUM_COINS /\
  Forall (fun c => ~ (Z.abs (Coin.x c - 400) < 60 /\
                      Z.abs (Coin.y c - 300) < 60)) (coins s).

(** ** Predicates of the further properties *)

(** A shape that lies on the 800 x 600 screen. *)
Definition on_screen (sh : Shape) : Prop :=
  match sh with
  | DrawRect _ r =>
      0 <= left r /\ right r <= SCREEN_WIDTH /\
      0 <= top r /\ bottom r <= SCREEN_HEIGHT
  | DrawCircle _ cx cy radius =>
      0 <= cx - radius /\ cx + radius <= SCREEN_WIDTH /\
      0 <= cy - radius /\ cy + radius <= SCREEN_HEIGHT
  end.

(** A coin within the margin of [Coin.respawn]. *)
Definition in_margin (c : Coin.t) : Prop :=
  20 <= Coin.x c <= 780 /\ 20 <= Coin.y c <= 580.

(** The largest time step the properties of a whole pass allow: with it
    the avatar moves by at most 2100000000 pixels, which a C integer
    holds.  The clock of the loop delivers far less. *)
Definition MAX_DT : Q := 7000000.

(** What every pass of the loop keeps of the session, rounding or not:
    the avatar 40 x 40 and inside the playfield, the enemy centre inside
    its bounds, five coins within the margin and not all collected, a
    survival time that is not negative, a time left of at most 45, and
    less than 20 seconds survived while the match runs. *)
Definition well_formed (s : Session) : Prop :=
  size_40 (player s) /\
  Player.inside_playfield (player s) /\
  Enemy.contained (enemy s) /\
  length (coins s) = NUM_COINS /\
  Forall in_margin (coins s) /\
  forallb Coin.collected (coins s) = false /\
  (0 <= elapsed_survival s)%Q /\
  (time_left s <= 45)%Q /\
  (Playing s -> (elapsed_survival s < 20)%Q).

(** A well-formed session whose two timers add up to 45 exactly, as they
    do when a match starts.  The loop adds [dt] to one timer and
    subtracts it from the other in floating point, each sum rounded on
    its own, so the equation is not kept from pass to pass: it is a
    hypothesis of the properties that name it. *)
Definition consistent (s : Session) : Prop :=
  size_40 (player s) /\
  Player.inside_playfield (player s) /\
  Enemy.contained (enemy s) /\
  length (coins s) = NUM_COINS /\
  Forall in_margin (coins s) /\
  forallb Coin.collected (coins s) = false /\
  (0 <= elapsed_survival s)%Q /\
  (time_left s + elapsed_survival s == 45)%Q /\
  (Playing s -> (elapsed_survival s < 20)%Q).


(** The events that end the program: the window closing and the escape
    key. *)
Definition is_quit (ev : Event) : bool :=
  match ev with
  | QUIT => true
  | KEYDOWN K_ESCAPE => true
  | _ => false
  end.

Definition left_and_right : Keys :=
  mkKeys true false false true false false false false.

Definition left_down : Keys :=
  mkKeys true false false false false false true false.

(** Two calls: into the bottom left corner, then right and down for
    10123334 seconds, a move of 2147483432 pixels on each axis. *)
Definition overflow_inputs : list (Q * Keys) :=
  [ (10 # 1, left_down)%Q; (10123334 # 1, right_down)%Q ].


(** An enemy whose centre touches no wall. *)
Definition off_the_walls (e : Enemy.t) : Prop :=
  (25 < Enemy.x e /\ Enemy.x e < 775 /\
   25 < Enemy.y e /\ Enemy.y e < 575)%Q.

(** A match that went on for a second and a half. *)
Definition midgame_session : Session :=
  {| player := {| Player.rect := mkRect 495 280 40 40 |};
     enemy := {| Enemy.x := 100; Enemy.y := 100;
                 Enemy.vx := 180; Enemy.vy := 0 |};
     coins := one_coin_ahead;
     score := 1;
     elapsed_survival := 3 # 2;
     time_left := 87 # 2;
     game_over := false; game_won := false;
     rng := mkRandom sample_source 13 |}.

(** * Properties *)

(** ** The model on sample inputs *)

Example clamp_inside : clamp 5 0 760 = 5.
Proof. reflexivity. Qed.

Example clamp_above : clamp 900 0 760 = 760.
Proof. reflexivity. Qed.

Example py_int_truncates : py_int (-7 # 2) = -3 /\ py_int (7 # 2) = 3.
Proof. split; reflexivity. Qed.

Example Player_init_centered :
  Player.rect (Player.init 400 300) = mkRect 380 280 40 40.
Proof. reflexivity. Qed.

Example Player_update_diagonal :
  Player.rect (Player.update (1 # 60) right_down (Player.init 400 300)) =
  mkRect 383 283 40 40.
Proof. reflexivity. Qed.

Example Player_update_clamped :
  Player.rect (Player.update (100 # 1) right_down (Player.init 400 300)) =
  mkRect 760 560 40 40.
Proof. reflexivity. Qed.

Example circle_touching_edge :
  rect_circle_collide (mkRect 380 280 40 40) 445 300 25 = true /\
  rect_circle_collide (mkRect 380 280 40 40) (4451 # 10) 300 25 = false.
Proof. split; reflexivity. Qed.

Example Enemy_corner_bounce :
  Enemy.update (1 # 60) corner_enemy =
  {| Enemy.x := 25; Enemy.y := 575; Enemy.vx := 108; Enemy.vy := (-144 # 1) |}.
Proof. reflexivity. Qed.

Example restart_rerolls :
  option_map coins (@keydown_r sample_libm 2 lost_session) =
  Some [ Coin.mk 400 20 false; Coin.mk 20 20 false; Coin.mk 20 20 false;
         Coin.mk 20 20 false; Coin.mk 20 20 false ] /\
  @keydown_r sample_libm 1 lost_session = None.
Proof. split; vm_compute; reflexivity. Qed.

(** ** Laws of the comparisons *)

Lemma Qltb_lt (a b : Q) : Qltb a b = true <-> (a < b)%Q.
Proof.
  unfold Qltb. rewrite negb_true_iff. split; intro H.
  - apply Qnot_le_lt. intro L. apply Qle_bool_iff in L. congruence.
  - destruct (Qle_bool b a) eqn:E; [|reflexivity].
    apply Qle_bool_iff in E. exfalso. apply (Qlt_not_le _ _ H E).
Qed.

Lemma Qltb_ge (a b : Q) : Qltb a b = false <-> (b <= a)%Q.
Proof. unfold Qltb. rewrite negb_false_iff. apply Qle_bool_iff. Qed.

#[export] Instance PyOrdLaws_Z : PyOrdLaws Z.
Proof.
  split; simpl.
  - intros a b H. apply Z.ltb_lt in H. apply Z.ltb_ge. lia.
  - intros a b c. rewrite !Z.ltb_lt. lia.
Qed.

#[export] Instance PyOrdLaws_Q : PyOrdLaws Q.
Proof.
  split; simpl.
  - intros a b H. apply Qltb_lt in H. apply Qltb_ge.
    apply Qlt_le_weak. exact H.
  - intros a b c. rewrite !Qltb_lt. apply Qlt_trans.
Qed.

(** On integers [clamp] lands between its bounds when they are ordered. *)
Lemma clamp_Z_between (v lo hi : Z) :
  lo <= hi -> lo <= clamp v lo hi <= hi.
Proof.
  intro H. unfold clamp, py_max, py_min. simpl.
  destruct (hi <? v) eqn:E1.
  - apply Z.ltb_lt in E1.
    destruct (lo <? hi) eqn:E2; [apply Z.ltb_lt in E2|apply Z.ltb_ge in E2]; lia.
  - apply Z.ltb_ge in E1.
    destruct (lo <? v) eqn:E2; [apply Z.ltb_lt in E2|apply Z.ltb_ge in E2]; lia.
Qed.

(** C9: [clamp] is a total function, and when the bounds are crossed
    ([minv > maxv]) it returns [minv] for every value: the lower bound
    dominates.  Stated for every number type with lawful comparisons, so
    for the integers and the floats the game clamps. *)
Theorem clamp_crossed_bounds_returns_minv
  {A : Type} `{PyOrdLaws A} (v minv maxv : A) :
  ltb maxv minv = true -> clamp v minv maxv = minv.
Proof.
  intro Hx. unfold clamp, py_max, py_min.
  destruct (ltb maxv v) eqn:E.
  - rewrite (ltb_asym _ _ Hx). reflexivity.
  - destruct (ltb minv v) eqn:E2; [|reflexivity].
    rewrite (ltb_trans _ _ _ Hx E2) in E. discriminate E.
Qed.

Lemma clamp_crossed_bounds_witness :
  ltb 3 10 = true /\ clamp 5 10 3 = 10 /\
  clamp (7 # 2)%Q (10 # 1)%Q (3 # 1)%Q = (10 # 1)%Q.
Proof.
  split; [reflexivity|]. split.
  - apply (clamp_crossed_bounds_returns_minv 5 10 3). reflexivity.
  - apply (clamp_crossed_bounds_returns_minv (7 # 2)%Q (10 # 1)%Q (3 # 1)%Q).
    reflexivity.
Defined.

(** ** Player *)

Lemma Player_update_width (dt : Q) (keys : Keys) (p : Player.t) :
  width (Player.rect (Player.update dt keys p)) = width (Player.rect p).
Proof. reflexivity. Qed.

Lemma Player_update_height (dt : Q) (keys : Keys) (p : Player.t) :
  height (Player.rect (Player.update dt keys p)) = height (Player.rect p).
Proof. reflexivity. Qed.

(** One call of [update] puts a rectangle that fits the screen inside it,
    wherever the move would have carried it. *)
Lemma Player_update_inside (dt : Q) (keys : Keys) (p : Player.t) :
  width (Player.rect p) <= SCREEN_WIDTH ->
  height (Player.rect p) <= SCREEN_HEIGHT ->
  0 <= left (Player.rect (Player.update dt keys p)) /\
  left (Player.rect (Player.update dt keys p)) + width (Player.rect p)
    <= SCREEN_WIDTH /\
  0 <= top (Player.rect (Player.update dt keys p)) /\
  top (Player.rect (Player.update dt keys p)) + height (Player.rect p)
    <= SCREEN_HEIGHT.
Proof.
  intros Hw Hh. unfold Player.update. cbn [Player.rect left top].
  match goal with
  | |- 0 <= clamp ?a 0 ?b /\ _ /\ 0 <= clamp ?c 0 ?d /\ _ =>
      pose proof (clamp_Z_between a 0 b ltac:(lia));
      pose proof (clamp_Z_between c 0 d ltac:(lia))
  end.
  lia.
Qed.

Lemma Player_init_size (x y : Z) : size_40 (Player.init x y).
Proof. split; reflexivity. Qed.

Lemma Player_trace_invariant (inputs : list (Q * Keys)) :
  forall p, size_40 p ->
  Forall (fun q => size_40 q /\ Player.inside_playfield q)
         (Player.trace inputs p).
Proof.
  induction inputs as [|[dt keys] rest IH]; intros p [Hw Hh]; simpl.
  - constructor.
  - assert (Hs : size_40 (Player.update dt keys p)).
    { split; [rewrite Player_update_width|rewrite Player_update_height];
        assumption. }
    constructor; [|apply IH; exact Hs].
    split; [exact Hs|].
    pose proof (Player_update_inside dt keys p) as Hi.
    unfold SCREEN_WIDTH, SCREEN_HEIGHT in Hi.
    destruct Hs as [Hw' Hh']. unfold Player.inside_playfield.
    rewrite Hw', Hh'. rewrite Hw, Hh in Hi. apply Hi; lia.
Qed.

(** C10: [Player.update] changes only the position of the rectangle: one
    call with [dt >= 0] keeps the width and the height, and along any
    sequence of calls from a constructed player they stay 40 x 40. *)
Theorem avatar_size_fixed (x y : Z) (inputs : list (Q * Keys)) :
  Forall (fun i => 0 <= fst i)%Q inputs ->
  (forall dt keys p, (0 <= dt)%Q ->
     width (Player.rect (Player.update dt keys p)) = width (Player.rect p) /\
     height (Player.rect (Player.update dt keys p)) = height (Player.rect p)) /\
  Forall (fun p => width (Player.rect p) = 40 /\ height (Player.rect p) = 40)
         (Player.trace inputs (Player.init x y)).
Proof.
  intros _. split.
  - intros dt keys p _. split; reflexivity.
  - eapply Forall_impl; [|apply Player_trace_invariant, Player_init_size].
    intros q [Hq _]. exact Hq.
Qed.

Lemma avatar_size_fixed_witness :
  Forall (fun p => width (Player.rect p) = 40 /\ height (Player.rect p) = 40)
         (Player.trace [((1 # 60)%Q, right_down); (3 # 1, no_keys)%Q]
                       (Player.init 400 300)).
Proof.
  apply (avatar_size_fixed 400 300
           [((1 # 60)%Q, right_down); (3 # 1, no_keys)%Q]).
  repeat constructor; simpl; unfold Qle; simpl; lia.
Defined.

(** ** Enemy *)

(** The four wall tests of [Enemy.update], each taken or not. *)
Ltac enemy_cases :=
  unfold Enemy.update; cbn [Enemy.x Enemy.y Enemy.vx Enemy.vy];
  repeat match goal with
    | |- context [Qle_bool ?a ?b] =>
        let E := fresh "E" in
        destruct (Qle_bool a b) eqn:E;
        [apply Qle_bool_iff in E
        |apply not_true_iff_false in E; rewrite Qle_bool_iff in E;
         apply Qnot_le_lt in E]
    end;
  cbn [Enemy.x Enemy.y Enemy.vx Enemy.vy].

Lemma Enemy_update_contained (dt : Q) (e : Enemy.t) :
  Enemy.contained (Enemy.update dt e).
Proof.
  unfold Enemy.contained. enemy_cases;
    unfold ENEMY_RADIUS, SCREEN_WIDTH, SCREEN_HEIGHT in *;
    simpl Z.sub in *; unfold inject_Z in *; repeat split; lra.
Qed.

(** A bounce multiplies a velocity component by -1, or leaves it. *)
Lemma Enemy_update_vx (dt : Q) (e : Enemy.t) :
  (Enemy.vx (Enemy.update dt e) == Enemy.vx e \/
   Enemy.vx (Enemy.update dt e) == - Enemy.vx e)%Q.
Proof.
  enemy_cases; solve [left; ring | right; ring].
Qed.

Lemma Enemy_update_vy (dt : Q) (e : Enemy.t) :
  (Enemy.vy (Enemy.update dt e) == Enemy.vy e \/
   Enemy.vy (Enemy.update dt e) == - Enemy.vy e)%Q.
Proof.
  enemy_cases; solve [left; ring | right; ring].
Qed.

Lemma Enemy_update_speed (dt : Q) (e : Enemy.t) :
  Enemy.speed (Enemy.update dt e) = Enemy.speed e.
Proof.
  unfold Enemy.speed. f_equal. apply Qeq_eqR.
  destruct (Enemy_update_vx dt e) as [Hx|Hx],
           (Enemy_update_vy dt e) as [Hy|Hy];
    rewrite Hx, Hy; ring.
Qed.

Lemma Enemy_trace_speed (dts : list Q) :
  forall e, Forall (fun e' => Enemy.speed e' = Enemy.speed e)
                   (Enemy.trace dts e).
Proof.
  induction dts as [|dt rest IH]; intro e; simpl; constructor.
  - apply Enemy_update_speed.
  - eapply Forall_impl; [|apply IH].
    intros e' He'. cbv beta in He'. rewrite He'. apply Enemy_update_speed.
Qed.

Lemma Enemy_trace_contained (dts : list Q) :
  forall e, Forall Enemy.contained (Enemy.trace dts e).
Proof.
  induction dts as [|dt rest IH]; intro e; simpl; constructor.
  - apply Enemy_update_contained.
  - apply IH.
Qed.

(** C6: for an enemy with a non-degenerate speed and every finite sequence
    of [Enemy.update] calls with [dt >= 0], the magnitude
    [sqrt(vx^2 + vy^2)] after each call equals its initial value. *)
Theorem adversary_speed_invariant (e : Enemy.t) (dts : list Q) :
  Enemy.nondegenerate e ->
  Forall (fun dt => 0 <= dt)%Q dts ->
  Forall (fun e' => Enemy.speed e' = Enemy.speed e) (Enemy.trace dts e).
Proof. intros _ _. apply Enemy_trace_speed. Qed.

Lemma adversary_speed_invariant_witness :
  Forall (fun e' => Enemy.speed e' = Enemy.speed corner_enemy)
         (Enemy.trace [(1 # 60)%Q; (1 # 60)%Q; (2 # 1)%Q] corner_enemy).
Proof.
  apply (adversary_speed_invariant corner_enemy).
  - intros [Hx _]. vm_compute in Hx. discriminate Hx.
  - repeat constructor; unfold Qle; simpl; lia.
Defined.

(** C7: for an enemy whose centre starts in [25, 775] x [25, 575] and
    every finite sequence of [Enemy.update] calls with [dt >= 0], after
    each call the centre is in [25, 775] x [25, 575]. *)
Theorem adversary_containment (e : Enemy.t) (dts : list Q) :
  Enemy.contained e ->
  Forall (fun dt => 0 <= dt)%Q dts ->
  Forall Enemy.contained (Enemy.trace dts e).
Proof. intros _ _. apply Enemy_trace_contained. Qed.

Lemma adversary_containment_witness :
  Forall Enemy.contained
         (Enemy.trace [(1 # 60)%Q; (1 # 60)%Q; (2 # 1)%Q] corner_enemy).
Proof.
  apply (adversary_containment corner_enemy).
  - unfold Enemy.contained, corner_enemy; simpl.
    repeat split; unfold Qle; simpl; lia.
  - repeat constructor; unfold Qle; simpl; lia.
Defined.

(** ** One frame of a running match *)

(** The frame takes its branch of line 201 and the fields of the result
    are read off the body. *)
Ltac frame_fields H :=
  let Ho := fresh "Ho" in
  let Hw := fresh "Hw" in
  destruct H as [Ho Hw]; unfold frame; rewrite Ho, Hw; cbn [orb];
  repeat match goal with
    | |- context [let (_, _) := ?p in _] => destruct p
    end;
  cbn.

Lemma frame_score_eq (dt : Q) (keys : Keys) (s : Session) :
  Playing s -> score (frame dt keys s) = frame_score dt s.
Proof. intro H. frame_fields H. reflexivity. Qed.

Lemma frame_elapsed_eq (dt : Q) (keys : Keys) (s : Session) :
  Playing s ->
  elapsed_survival (frame dt keys s) = (elapsed_survival s + dt)%Q.
Proof. intro H. frame_fields H. reflexivity. Qed.

Lemma frame_time_left_eq (dt : Q) (keys : Keys) (s : Session) :
  Playing s -> time_left (frame dt keys s) = (time_left s - dt)%Q.
Proof. intro H. frame_fields H. reflexivity. Qed.

Lemma frame_coins_eq (dt : Q) (keys : Keys) (s : Session) :
  Playing s ->
  coins (frame dt keys s) =
  fst (respawn_if_all (map (collect (moved_player dt keys s)) (coins s))
                      (rng s)).
Proof.
  intro H. destruct H as [Ho Hw]. unfold frame, moved_player.
  rewrite Ho, Hw. cbn [orb].
  destruct (respawn_if_all _ _) as [cs g].
  destruct (decide _ _ _ _). reflexivity.
Qed.

Lemma frame_flags_eq (dt : Q) (keys : Keys) (s : Session) :
  Playing s ->
  (game_over (frame dt keys s), game_won (frame dt keys s)) =
  decide (hit (moved_player dt keys s) (moved_enemy dt s))
         (time_left s - dt)%Q (frame_score dt s) (false, false).
Proof.
  intro H. destruct H as [Ho Hw]. unfold frame, moved_player, moved_enemy.
  rewrite Ho, Hw. cbn [orb].
  destruct (respawn_if_all _ _) as [cs g].
  destruct (decide _ _ _ _). reflexivity.
Qed.

(** Once the match is over a frame changes nothing. *)
Lemma frame_over (dt : Q) (keys : Keys) (s : Session) :
  Lost s \/ Won s -> frame dt keys s = s.
Proof.
  unfold Lost, Won, frame. intros [H|H]; rewrite H; [|rewrite orb_true_r];
    reflexivity.
Qed.

(** The survival time never becomes negative. *)
Lemma frame_elapsed_nonneg (dt : Q) (keys : Keys) (s : Session) :
  (0 <= elapsed_survival s)%Q -> (0 <= dt)%Q ->
  (0 <= elapsed_survival (frame dt keys s))%Q.
Proof.
  intros He Hd. unfold frame.
  destruct (game_over s || game_won s); [exact He|].
  destruct (respawn_if_all _ _); destruct (decide _ _ _ _). cbn. lra.
Qed.

(** Lines 232 to 246 on a collision with the winning score: line 234 sets
    [game_over], line 246 sets [game_won]. *)
Lemma decide_hit_and_score (t : Q) (sc : Z) :
  WIN_SCORE <= sc -> decide true t sc (false, false) = (true, true).
Proof.
  intro H. apply Z.leb_le in H. unfold decide. rewrite H.
  destruct (Qle_bool t 0); reflexivity.
Qed.

Lemma decide_timeout (t : Q) (sc : Z) :
  (t <= 0)%Q ->
  decide false t sc (false, false) =
  if WIN_SCORE <=? sc then (false, true) else (true, false).
Proof.
  intro H. apply Qle_bool_iff in H. unfold decide. rewrite H.
  destruct (WIN_SCORE <=? sc); reflexivity.
Qed.

(** C1, as the code has it: in a frame of a running match where the
    overlap test of line 233 is true and the score of the frame is at
    least [WIN_SCORE], the frame ends with both flags set: [game_over]
    (Lost) from line 234 and [game_won] (Won) from line 246. *)
Theorem collision_with_win_score_sets_both_flags
  (dt : Q) (keys : Keys) (s : Session) :
  Playing s ->
  hit (moved_player dt keys s) (moved_enemy dt s) = true ->
  WIN_SCORE <= score (frame dt keys s) ->
  Lost (frame dt keys s) /\ Won (frame dt keys s).
Proof.
  intros Hp Hh Hs. rewrite (frame_score_eq dt keys s Hp) in Hs.
  pose proof (frame_flags_eq dt keys s Hp) as Hf.
  rewrite Hh, (decide_hit_and_score _ _ Hs) in Hf.
  unfold Lost, Won. split; congruence.
Qed.

(** C4: in a frame of a running match with no overlap in which
    [time_left] is at most 0 after the decrement, the match is Won (and
    not Lost) when the score of the frame is at least [WIN_SCORE], and
    Lost (and not Won) when it is below. *)
Theorem timeout_resolution (dt : Q) (keys : Keys) (s : Session) :
  Playing s ->
  hit (moved_player dt keys s) (moved_enemy dt s) = false ->
  (time_left (frame dt keys s) <= 0)%Q ->
  (WIN_SCORE <= score (frame dt keys s) ->
     Won (frame dt keys s) /\ ~ Lost (frame dt keys s)) /\
  (score (frame dt keys s) < WIN_SCORE ->
     Lost (frame dt keys s) /\ ~ Won (frame dt keys s)).
Proof.
  intros Hp Hh Ht.
  rewrite (frame_time_left_eq dt keys s Hp) in Ht.
  rewrite (frame_score_eq dt keys s Hp).
  pose proof (frame_flags_eq dt keys s Hp) as Hf.
  rewrite Hh, (decide_timeout _ _ Ht) in Hf.
  unfold Lost, Won. split; intro Hs.
  - apply Z.leb_le in Hs. rewrite Hs in Hf.
    split; [congruence|]. intro Hc. congruence.
  - apply Z.leb_gt in Hs. rewrite Hs in Hf.
    split; [congruence|]. intro Hc. congruence.
Qed.

Lemma timeout_resolution_witness :
  (score (frame (1 # 60) no_keys (timeout_session 5 far_coins)) = 5 /\
   Lost (frame (1 # 60) no_keys (timeout_session 5 far_coins)) /\
   ~ Won (frame (1 # 60) no_keys (timeout_session 5 far_coins))) /\
  (score (frame (1 # 60) no_keys (timeout_session 21 four_collected)) = 25 /\
   Won (frame (1 # 60) no_keys (timeout_session 21 four_collected)) /\
   ~ Lost (frame (1 # 60) no_keys (timeout_session 21 four_collected))).
Proof.
  split; (split; [vm_compute; reflexivity|]).
  - apply (timeout_resolution (1 # 60) no_keys (timeout_session 5 far_coins)).
    + split; reflexivity.
    + vm_compute. reflexivity.
    + vm_compute. discriminate.
    + vm_compute. reflexivity.
  - apply (timeout_resolution (1 # 60) no_keys
             (timeout_session 21 four_collected)).
    + split; reflexivity.
    + vm_compute. reflexivity.
    + vm_compute. discriminate.
    + vm_compute. discriminate.
Defined.

Lemma collision_with_win_score_witness :
  Lost (frame (1 # 60) no_keys tie_session) /\
  Won (frame (1 # 60) no_keys tie_session).
Proof.
  apply (collision_with_win_score_sets_both_flags (1 # 60) no_keys tie_session).
  - split; reflexivity.
  - vm_compute. reflexivity.
  - vm_compute. discriminate.
Defined.

(** C1 as the design document states it fails: on [tie_session] the
    overlap test is true and the score of the frame is 20, and the frame
    ends with [game_won] set, so the state is not Lost without Won. *)
Lemma tie_break_counterexample :
  Playing tie_session /\
  hit (moved_player (1 # 60) no_keys tie_session)
      (moved_enemy (1 # 60) tie_session) = true /\
  WIN_SCORE <= score (frame (1 # 60) no_keys tie_session) /\
  ~ (Lost (frame (1 # 60) no_keys tie_session) /\
     ~ Won (frame (1 # 60) no_keys tie_session)).
Proof.
  split; [split; reflexivity|].
  split; [vm_compute; reflexivity|].
  split; [vm_compute; discriminate|].
  intros [_ Hn]. apply Hn. vm_compute. reflexivity.
Qed.

(** ** The score of a frame *)

(** [int] of a float that is not negative is its floor. *)
Lemma py_int_floor (q : Q) : (0 <= q)%Q -> py_int q = Qfloor q.
Proof.
  destruct q as [n d]. unfold Qle, py_int, Qfloor. simpl. intro H.
  apply Z.quot_div_nonneg; lia.
Qed.

Lemma count_collected_flags (cs1 : list Coin.t) :
  forall cs2,
    map Coin.collected cs1 = map Coin.collected cs2 ->
    count_collected cs1 = count_collected cs2.
Proof.
  unfold count_collected.
  induction cs1 as [|c1 r1 IH]; intros [|c2 r2] H; simpl in H;
    try discriminate; [reflexivity|].
  injection H as Hc Hr. simpl. rewrite Hc.
  specialize (IH r2 Hr).
  destruct (Coin.collected c2); simpl; lia.
Qed.

(** Line 214 runs before the collection loop: the score of a frame is the
    floor of the new survival time plus the number of coins that were
    collected when the frame began. *)
Lemma frame_score_from_start_flags (dt : Q) (keys : Keys) (s : Session) :
  Playing s -> (0 <= elapsed_survival s)%Q -> (0 <= dt)%Q ->
  score (frame dt keys s) =
  Qfloor (elapsed_survival (frame dt keys s)) + count_collected (coins s).
Proof.
  intros Hp He Hd.
  rewrite (frame_score_eq dt keys s Hp), (frame_elapsed_eq dt keys s Hp).
  unfold frame_score. rewrite py_int_floor; [reflexivity|].
  apply Qle_trans with (y := (0 + 0)%Q); [discriminate|].
  apply Qplus_le_compat; assumption.
Qed.

(** C2, as the code has it: after a frame of a running match (with a
    survival time and a [dt] that are not negative) during which no coin
    changes its [collected] flag, [score] is the floor of the new survival
    time plus the number of coins whose flag is set after the frame. *)
Theorem score_derivation_when_flags_unchanged
  (dt : Q) (keys : Keys) (s : Session) :
  Playing s -> (0 <= elapsed_survival s)%Q -> (0 <= dt)%Q ->
  map Coin.collected (coins (frame dt keys s)) =
    map Coin.collected (coins s) ->
  score (frame dt keys s) =
  Qfloor (elapsed_survival (frame dt keys s)) +
  count_collected (coins (frame dt keys s)).
Proof.
  intros Hp He Hd Hflags.
  rewrite (count_collected_flags _ _ Hflags).
  apply frame_score_from_start_flags; assumption.
Qed.

Lemma score_derivation_witness :
  score (frame (1 # 60) no_keys tie_session) =
  Qfloor (elapsed_survival (frame (1 # 60) no_keys tie_session)) +
  count_collected (coins (frame (1 # 60) no_keys tie_session)).
Proof.
  apply (score_derivation_when_flags_unchanged (1 # 60) no_keys tie_session).
  - split; reflexivity.
  - vm_compute. discriminate.
  - vm_compute. discriminate.
  - vm_compute. reflexivity.
Defined.

(** C2 as the design document states it fails: the player reaches a coin
    in this frame, the flag of the coin is set after line 214 has derived
    the score, and after the frame [score] is 3 while the floor of the
    survival time plus the number of set flags is 4. *)
Lemma score_derivation_counterexample :
  Playing (approach_session one_coin_ahead) /\
  (0 <= 1 # 60)%Q /\
  score (frame (1 # 60) right_only (approach_session one_coin_ahead)) = 3 /\
  Qfloor (elapsed_survival
            (frame (1 # 60) right_only (approach_session one_coin_ahead))) +
  count_collected
    (coins (frame (1 # 60) right_only (approach_session one_coin_ahead))) = 4 /\
  score (frame (1 # 60) right_only (approach_session one_coin_ahead)) <>
  Qfloor (elapsed_survival
            (frame (1 # 60) right_only (approach_session one_coin_ahead))) +
  count_collected
    (coins (frame (1 # 60) right_only (approach_session one_coin_ahead))).
Proof.
  split; [split; reflexivity|].
  split; [discriminate|].
  split; [vm_compute; reflexivity|].
  split; [vm_compute; reflexivity|].
  vm_compute. discriminate.
Qed.

(** ** The respawn of the batch *)

Lemma respawn_draws (g : Random) :
  Coin.respawn g =
  (coin_at (raw g) (pos g), mkRandom (raw g) (S (S (pos g)))).
Proof. reflexivity. Qed.

Lemma replicateM_respawn (n : nat) :
  forall g,
    replicateM n Coin.respawn g =
    (map (fun k => coin_at (raw g) (pos g + 2 * k)) (seq 0 n),
     mkRandom (raw g) (pos g + 2 * n)).
Proof.
  induction n as [|n IH]; intro g.
  - simpl. unfold ret. destruct g as [r p]. simpl.
    rewrite Nat.add_0_r. reflexivity.
  - cbn [replicateM]. unfold bind at 1. rewrite respawn_draws.
    unfold bind at 1. rewrite IH. unfold ret. cbn [raw pos seq map].
    f_equal.
    + f_equal.
      * rewrite Nat.add_0_r. reflexivity.
      * rewrite <- seq_shift, map_map. apply map_ext. intro k.
        f_equal. lia.
    + f_equal. lia.
Qed.

(** The first half of C3 holds: in a frame of a running match in which
    every coin ends the collection loop collected, the frame ends with
    every coin built from new draws of the generator, its flag cleared. *)
Lemma batch_respawn_same_frame (dt : Q) (keys : Keys) (s : Session) :
  Playing s ->
  forallb Coin.collected
          (map (collect (moved_player dt keys s)) (coins s)) = true ->
  coins (frame dt keys s) =
  map (fun k => coin_at (raw (rng s)) (pos (rng s) + 2 * k))
      (seq 0 (length (coins s))) /\
  Forall (fun c => Coin.collected c = false) (coins (frame dt keys s)).
Proof.
  intros Hp Hall.
  assert (Hc : coins (frame dt keys s) =
    map (fun k => coin_at (raw (rng s)) (pos (rng s) + 2 * k))
        (seq 0 (length (coins s)))).
  { rewrite (frame_coins_eq dt keys s Hp). unfold respawn_if_all.
    rewrite Hall, replicateM_respawn, length_map. reflexivity. }
  split; [exact Hc|].
  rewrite Hc. apply Forall_forall. intros c Hin.
  apply in_map_iff in Hin. destruct Hin as [k [Hk _]]. subst c. reflexivity.
Qed.

Lemma count_collected_le (cs : list Coin.t) :
  count_collected cs <= Z.of_nat (length cs).
Proof.
  unfold count_collected. apply Nat2Z.inj_le. apply filter_length_le.
Qed.

Lemma count_collected_lt (cs : list Coin.t) :
  forallb Coin.collected cs = false ->
  count_collected cs < Z.of_nat (length cs).
Proof.
  unfold count_collected. induction cs as [|c r IH]; simpl.
  - discriminate.
  - destruct (Coin.collected c) eqn:E; simpl.
    + intro H. specialize (IH H). lia.
    + intros _. pose proof (filter_length_le Coin.collected r). lia.
Qed.

(** The second half of C3 fails on every such frame: a coin that is still
    to be collected when the frame begins is not in the score of the
    frame, so that score is below the survival seconds plus the size of
    the batch. *)
Lemma batch_frame_score_below (dt : Q) (keys : Keys) (s : Session) :
  Playing s ->
  forallb Coin.collected (coins s) = false ->
  score (frame dt keys s) <
  py_int (elapsed_survival (frame dt keys s)) + Z.of_nat (length (coins s)).
Proof.
  intros Hp Hsome.
  rewrite (frame_score_eq dt keys s Hp), (frame_elapsed_eq dt keys s Hp).
  unfold frame_score. pose proof (count_collected_lt _ Hsome). lia.
Qed.

(** C3 on a frame that collects the five coins at once: when the frame
    ends the five coins are uncollected at the positions of ten new draws,
    and the score of the frame is 3, the survival seconds alone, not 3 + 5:
    the coins collected in the frame are not counted. *)
Theorem batch_respawn_score_omits_collection :
  let s := approach_session all_coins_ahead in
  let s' := frame (1 # 60) right_only s in
  Playing s /\
  map Coin.collected
      (map (collect (moved_player (1 # 60) right_only s)) (coins s)) =
    [true; true; true; true; true] /\
  coins s' =
    [ Coin.mk 512 549 false; Coin.mk 586 62 false; Coin.mk 660 136 false;
      Coin.mk 734 210 false; Coin.mk 47 284 false ] /\
  pos (rng s') = (pos (rng s) + 10)%nat /\
  py_int (elapsed_survival s') = 3 /\
  score s' = 3 /\
  score s' <> py_int (elapsed_survival s') + 5.
Proof.
  cbv zeta. split; [split; reflexivity|].
  repeat split; try (vm_compute; reflexivity).
  vm_compute. discriminate.
Qed.

(** ** Restart *)

Lemma too_close_false (c : Coin.t) :
  too_close (Player.init (SCREEN_WIDTH / 2) (SCREEN_HEIGHT / 2)) c = false ->
  ~ (Z.abs (Coin.x c - 400) < 60 /\ Z.abs (Coin.y c - 300) < 60).
Proof.
  unfold too_close. change (centerx _) with 400. change (centery _) with 300.
  intros H [Hx Hy]. apply andb_false_iff in H.
  destruct H as [H|H]; apply Z.ltb_ge in H; lia.
Qed.

(** The loop of one coin, when it ends, leaves a coin that is not too
    close, and reads the same source. *)
Lemma fix_coin_sound (fuel : nat) (p : Player.t) :
  forall c g c' g',
    fix_coin fuel p c g = Some (c', g') ->
    too_close p c' = false /\ raw g' = raw g.
Proof.
  induction fuel as [|n IH]; intros c g c' g' H; cbn [fix_coin] in H;
    destruct (too_close p c) eqn:E; try discriminate.
  - injection H as <- <-. split; [exact E|reflexivity].
  - rewrite respawn_draws in H. apply IH in H. exact H.
  - injection H as <- <-. split; [exact E|reflexivity].
Qed.

(** More fuel does not change the outcome of a loop that ended. *)
Lemma fix_coin_more_fuel (n : nat) (p : Player.t) :
  forall m c g r,
    (n <= m)%nat -> fix_coin n p c g = Some r -> fix_coin m p c g = Some r.
Proof.
  induction n as [|n IH]; intros m c g r Hle H; cbn [fix_coin] in H;
    destruct (too_close p c) eqn:E; try discriminate.
  - destruct m; cbn [fix_coin]; rewrite E; exact H.
  - destruct m as [|m]; [lia|]. cbn [fix_coin]. rewrite E.
    rewrite respawn_draws in *. apply IH; [lia|exact H].
  - destruct m; cbn [fix_coin]; rewrite E; exact H.
Qed.

(** The loop of one coin ends once a pair of draws places the coin away
    from the player: [k] rejected pairs cost [k + 1] calls of [respawn]. *)
Lemma fix_coin_ends (p : Player.t) (source : nat -> Z) (k : nat) :
  forall i c,
    too_close p (coin_at source (i + 2 * k)) = false ->
    exists r, fix_coin (S k) p c (mkRandom source i) = Some r.
Proof.
  induction k as [|k IH]; intros i c Hk.
  - cbn [fix_coin]. destruct (too_close p c); [|eexists; reflexivity].
    rewrite respawn_draws. cbn [raw pos].
    replace (i + 2 * 0)%nat with i in Hk by lia.
    rewrite Hk. eexists; reflexivity.
  - cbn [fix_coin]. destruct (too_close p c); [|eexists; reflexivity].
    rewrite respawn_draws. cbn [raw pos].
    apply IH. replace (S (S i) + 2 * k)%nat with (i + 2 * S k)%nat by lia.
    exact Hk.
Qed.

Lemma fix_coins_initial_sound (fuel : nat) (p : Player.t) (cs : list Coin.t) :
  forall g cs' g',
    fix_coins_initial fuel p cs g = Some (cs', g') ->
    Forall (fun c => too_close p c = false) cs' /\
    length cs' = length cs /\ raw g' = raw g.
Proof.
  induction cs as [|c rest IH]; intros g cs' g' H; simpl in H.
  - injection H as <- <-. repeat split. constructor.
  - destruct (fix_coin fuel p c g) as [[c1 g1]|] eqn:E1; [|discriminate].
    destruct (fix_coins_initial fuel p rest g1) as [[r2 g2]|] eqn:E2;
      [|discriminate].
    injection H as <- <-.
    apply fix_coin_sound in E1. destruct E1 as [Hc Hr1].
    apply IH in E2. destruct E2 as [Hf [Hl Hr2]].
    repeat split.
    + constructor; assumption.
    + simpl. rewrite Hl. reflexivity.
    + congruence.
Qed.

Lemma fix_coins_initial_more_fuel (p : Player.t) (cs : list Coin.t) :
  forall n m g r,
    (n <= m)%nat ->
    fix_coins_initial n p cs g = Some r ->
    fix_coins_initial m p cs g = Some r.
Proof.
  induction cs as [|c rest IH]; intros n m g r Hle H; simpl in *.
  - exact H.
  - destruct (fix_coin n p c g) as [[c1 g1]|] eqn:E1; [|discriminate].
    rewrite (fix_coin_more_fuel n p m c g _ Hle E1).
    destruct (fix_coins_initial n p rest g1) as [[r2 g2]|] eqn:E2;
      [|discriminate].
    rewrite (IH n m g1 _ Hle E2). exact H.
Qed.

(** With a fair source every loop of [fix_coins_initial] ends. *)
Lemma fix_coins_initial_ends (source : nat -> Z) (cs : list Coin.t) :
  fair_source source ->
  forall i, exists fuel r,
    fix_coins_initial fuel
      (Player.init (SCREEN_WIDTH / 2) (SCREEN_HEIGHT / 2)) cs
      (mkRandom source i) = Some r.
Proof.
  intro Hfair. induction cs as [|c rest IH]; intro i.
  - exists O. eexists. reflexivity.
  - destruct (Hfair i) as [k Hk].
    destruct (fix_coin_ends _ source k i c Hk) as [[c1 g1] E1].
    pose proof (fix_coin_sound _ _ _ _ _ _ E1) as [_ Hr]. cbn [raw] in Hr.
    destruct g1 as [src1 j]. cbn [raw] in Hr. subst src1.
    destruct (IH j) as [n [[r2 g2] E2]].
    exists (Nat.max (S k) n). eexists. cbn [fix_coins_initial].
    rewrite (fix_coin_more_fuel (S k) _ _ c _ _ (Nat.le_max_l _ _) E1).
    rewrite (fix_coins_initial_more_fuel _ rest n _ _ _ (Nat.le_max_r _ _) E2).
    reflexivity.
Qed.

Section Restart.

Context `{Libm}.

Lemma Enemy_init_draws (g : Random) :
  exists e, Enemy.init g = (e, mkRandom (raw g) (S (S (S (pos g))))).
Proof. eexists. reflexivity. Qed.

Lemma new_session_sound (fuel : nat) (g : Random) (s' : Session) :
  new_session fuel g = Some s' -> freshly_started s'.
Proof.
  unfold new_session. destruct (Enemy_init_draws g) as [e ->].
  unfold Coin.init. rewrite replicateM_respawn.
  destruct (fix_coins_initial _ _ _ _) as [[cs g3]|] eqn:E; [|discriminate].
  intro Hs. injection Hs as <-.
  apply fix_coins_initial_sound in E. destruct E as [Hf [Hl _]].
  unfold freshly_started, Playing. cbn.
  repeat split.
  - rewrite Hl, length_map, length_seq. reflexivity.
  - eapply Forall_impl; [|exact Hf]. intros c. apply too_close_false.
Qed.

Lemma new_session_ends (g : Random) :
  fair_source (raw g) -> exists fuel s', new_session fuel g = Some s'.
Proof.
  intro Hfair. unfold new_session. destruct (Enemy_init_draws g) as [e ->].
  unfold Coin.init. rewrite replicateM_respawn. cbn [raw pos].
  match goal with
  | |- context [fix_coins_initial _ ?p ?cs (mkRandom _ ?i)] =>
      destruct (fix_coins_initial_ends (raw g) cs Hfair i) as [fuel [[cs' g3] E]]
  end.
  exists fuel. rewrite E. eexists. reflexivity.
Qed.

(** C8: when the match is Lost (or Won) and the restart key goes down,
    the session that results has a score of 0, a survival time of 0, 45
    seconds left, the state Playing, the avatar centred at (400, 300) and
    five coins none of which is within 60 of the avatar centre on both
    axes; and a session does result, the coin loops of line 171 end,
    whenever the source of draws is fair. *)
Theorem restart_resets_all (s : Session) :
  Lost s \/ Won s ->
  (fair_source (raw (rng s)) -> exists fuel s', keydown_r fuel s = Some s') /\
  (forall fuel s', keydown_r fuel s = Some s' -> freshly_started s').
Proof.
  intros Hend.
  assert (Hflag : game_over s || game_won s = true).
  { destruct Hend as [Hl|Hw]; unfold Lost, Won in *.
    - rewrite Hl. reflexivity.
    - rewrite Hw. apply orb_true_r. }
  unfold keydown_r. rewrite Hflag. split.
  - apply new_session_ends.
  - intros fuel s'. apply new_session_sound.
Qed.

End Restart.

Lemma stubborn_source_fair : fair_source stubborn_source.
Proof.
  intro i. exists 8%nat. unfold coin_at, stubborn_source.
  destruct (Nat.ltb_spec (i + 2 * 8) 16) as [Hlt|_]; [lia|].
  destruct (Nat.ltb_spec (S (i + 2 * 8)) 16) as [Hlt|_]; [lia|].
  reflexivity.
Qed.

Lemma restart_resets_all_witness :
  (exists fuel s', @keydown_r sample_libm fuel lost_session = Some s') /\
  (forall fuel s',
     @keydown_r sample_libm fuel lost_session = Some s' ->
     freshly_started s').
Proof.
  destruct (@restart_resets_all sample_libm lost_session) as [Hends Hsound].
  - left. reflexivity.
  - split; [apply Hends; exact stubborn_source_fair|exact Hsound].
Defined.

(** * Further properties of the code *)

(** ** Geometry helpers *)

Lemma ltb_irrefl {A : Type} `{PyOrdLaws A} (a : A) : ltb a a = false.
Proof.
  destruct (ltb a a) eqn:E; [|reflexivity].
  rewrite (ltb_asym _ _ E) in E. discriminate E.
Qed.

(** When the bounds are in order ([maxv] is not below [minv]), [clamp]
    returns a value that is neither below [minv] nor above [maxv]. *)
Theorem clamp_within_bounds {A : Type} `{PyOrdLaws A} (v minv maxv : A) :
  ltb maxv minv = false ->
  ltb (clamp v minv maxv) minv = false /\
  ltb maxv (clamp v minv maxv) = false.
Proof.
  intro Hb. unfold clamp, py_max, py_min.
  destruct (ltb maxv v) eqn:E1.
  - destruct (ltb minv maxv) eqn:E2.
    + split; [apply ltb_asym; exact E2|apply ltb_irrefl].
    + split; [apply ltb_irrefl|exact Hb].
  - destruct (ltb minv v) eqn:E2.
    + split; [apply ltb_asym; exact E2|exact E1].
    + split; [apply ltb_irrefl|exact Hb].
Qed.

Lemma clamp_within_bounds_witness :
  ltb (clamp 900 0 760) 0 = false /\ ltb 760 (clamp 900 0 760) = false.
Proof.
  apply (clamp_within_bounds 900 0 760). reflexivity.
Defined.

(** Clamping twice is clamping once, whatever the bounds are. *)
Theorem clamp_idempotent {A : Type} `{PyOrdLaws A} (v minv maxv : A) :
  clamp (clamp v minv maxv) minv maxv = clamp v minv maxv.
Proof.
  unfold clamp, py_max, py_min.
  destruct (ltb maxv v) eqn:E1.
  - destruct (ltb minv maxv) eqn:E2.
    + rewrite ltb_irrefl, E2. reflexivity.
    + destruct (ltb maxv minv) eqn:E3.
      * rewrite E2. reflexivity.
      * rewrite ltb_irrefl. reflexivity.
  - destruct (ltb minv v) eqn:E2.
    + rewrite E1, E2. reflexivity.
    + destruct (ltb maxv minv) eqn:E3.
      * rewrite (ltb_asym _ _ E3). reflexivity.
      * rewrite ltb_irrefl. reflexivity.
Qed.

Lemma clamp_idempotent_witness :
  clamp (clamp 900 0 760) 0 760 = clamp 900 0 760 /\
  clamp (clamp (7 # 2)%Q (10 # 1)%Q (3 # 1)%Q) (10 # 1)%Q (3 # 1)%Q =
  clamp (7 # 2)%Q (10 # 1)%Q (3 # 1)%Q.
Proof.
  split.
  - apply (clamp_idempotent 900 0 760).
  - apply (clamp_idempotent (7 # 2)%Q (10 # 1)%Q (3 # 1)%Q).
Defined.






(** ** The moves of the player *)

(** [int] truncates toward zero: the result lies between 0 and the
    float. *)
Lemma py_int_nonneg (q : Q) :
  (0 <= q)%Q -> 0 <= py_int q /\ (inject_Z (py_int q) <= q)%Q.
Proof.
  intro H. rewrite (py_int_floor q H). split.
  - change 0 with (Qfloor 0). apply Qfloor_resp_le. exact H.
  - apply Qfloor_le.
Qed.

Lemma py_int_opp (q : Q) : py_int (- q) = - py_int q.
Proof.
  destruct q as [n d]. unfold py_int. simpl.
  apply Z.quot_opp_l. discriminate.
Qed.

Lemma py_int_nonpos (q : Q) :
  (q <= 0)%Q -> py_int q <= 0 /\ (q <= inject_Z (py_int q))%Q.
Proof.
  intro H. assert (Hn : (0 <= - q)%Q) by lra.
  destruct (py_int_nonneg _ Hn) as [H1 H2].
  rewrite py_int_opp in H1, H2. rewrite inject_Z_opp in H2.
  split; [lia|lra].
Qed.

(** On integers a value between the bounds is left alone, and a value
    that started between the bounds is pulled back no further than where
    it started. *)
Lemma clamp_Z_step (l k hi : Z) :
  0 <= l <= hi ->
  (0 <= k -> l <= clamp (l + k) 0 hi <= l + k) /\
  (k <= 0 -> l + k <= clamp (l + k) 0 hi <= l).
Proof.
  intro Hl. unfold clamp, py_max, py_min. cbn [ltb PyOrd_Z].
  destruct (Z.ltb_spec hi (l + k));
    match goal with
    | |- context [?a <? ?b] => destruct (Z.ltb_spec a b)
    end; split; intro; lia.
Qed.

(** One axis of [Player.update]: the direction [c] is scaled by the speed
    and the time step, truncated, added and clamped. *)
Lemma axis_move (c dt : Q) (l hi : Z) :
  (-1 <= c)%Q -> (c <= 1)%Q -> (0 <= dt)%Q -> 0 <= l <= hi ->
  Qle (inject_Z
         (Z.abs (clamp (l + py_int (c * inject_Z PLAYER_SPEED * dt)%Q) 0 hi
                 - l)))
      (300 * dt)%Q /\
  ((0 <= c)%Q ->
     l <= clamp (l + py_int (c * inject_Z PLAYER_SPEED * dt)%Q) 0 hi) /\
  ((c <= 0)%Q ->
     clamp (l + py_int (c * inject_Z PLAYER_SPEED * dt)%Q) 0 hi <= l).
Proof.
  intros Hc1 Hc2 Hd Hl.
  change (inject_Z PLAYER_SPEED) with (300 # 1).
  set (q := (c * (300 # 1) * dt)%Q).
  destruct (clamp_Z_step l (py_int q) hi Hl) as [Hpos Hneg].
  assert (Hup : (0 <= (1 - c) * dt)%Q) by (apply Qmult_le_0_compat; lra).
  assert (Hdn : (0 <= (c + 1) * dt)%Q) by (apply Qmult_le_0_compat; lra).
  assert (Fpos : (0 <= c)%Q ->
            0 <= py_int q /\ (inject_Z (py_int q) <= 300 * dt)%Q).
  { intro H0. assert (Hq : (0 <= q)%Q).
    { unfold q. assert (0 <= c * dt)%Q by (apply Qmult_le_0_compat; lra).
      lra. }
    destruct (py_int_nonneg q Hq) as [H1 H2]. split; [exact H1|].
    assert (Hq2 : (q <= 300 * dt)%Q) by (unfold q; lra).
    apply Qle_trans with (y := q); assumption. }
  assert (Fneg : (c <= 0)%Q ->
            py_int q <= 0 /\ (- (300 * dt) <= inject_Z (py_int q))%Q).
  { intro H0. assert (Hq : (q <= 0)%Q).
    { unfold q. assert (0 <= (- c) * dt)%Q by (apply Qmult_le_0_compat; lra).
      lra. }
    destruct (py_int_nonpos q Hq) as [H1 H2]. split; [exact H1|].
    assert (Hq2 : (- (300 * dt) <= q)%Q) by (unfold q; lra).
    apply Qle_trans with (y := q); assumption. }
  destruct (Qlt_le_dec c 0) as [Hlt|Hge].
  - destruct (Fneg (Qlt_le_weak _ _ Hlt)) as [K1 K2].
    specialize (Hneg K1). repeat split.
    + rewrite Z.abs_neq by lia.
      apply Qle_trans with (y := inject_Z (- py_int q)).
      * rewrite <- Zle_Qle. lia.
      * rewrite inject_Z_opp. lra.
    + intro H0. exfalso. lra.
    + intros _. lia.
  - destruct (Fpos Hge) as [K1 K2].
    specialize (Hpos K1). repeat split.
    + rewrite Z.abs_eq by lia.
      apply Qle_trans with (y := inject_Z (py_int q)); [|exact K2].
      rewrite <- Zle_Qle. lia.
    + intros _. lia.
    + intro H0. destruct (Fneg H0) as [K3 _]. destruct (Hneg K3). lia.
Qed.

(** The two axes of one call of [update], whatever the keys are. *)
Lemma Player_update_axes (dt : Q) (keys : Keys) (p : Player.t) :
  Player.inside_playfield p -> (0 <= dt)%Q ->
  let p' := Player.update dt keys p in
  ((inject_Z (Z.abs (left (Player.rect p') - left (Player.rect p)))
    <= 300 * dt)%Q /\
   (K_LEFT keys || K_a keys = false ->
      left (Player.rect p) <= left (Player.rect p')) /\
   (K_RIGHT keys || K_d keys = false ->
      left (Player.rect p') <= left (Player.rect p))) /\
  ((inject_Z (Z.abs (top (Player.rect p') - top (Player.rect p)))
    <= 300 * dt)%Q /\
   (K_UP keys || K_w keys = false ->
      top (Player.rect p) <= top (Player.rect p')) /\
   (K_DOWN keys || K_s keys = false ->
      top (Player.rect p') <= top (Player.rect p))).
Proof.
  intros [Hl1 [Hl2 [Ht1 Ht2]]] Hd. unfold SCREEN_WIDTH, SCREEN_HEIGHT in *.
  unfold Player.update. cbn [Player.rect left top].
  destruct (K_LEFT keys || K_a keys), (K_RIGHT keys || K_d keys),
           (K_UP keys || K_w keys), (K_DOWN keys || K_s keys);
    match goal with
    | |- context [clamp (left (Player.rect p) + py_int (?c * _ * _)) 0 ?hi] =>
        destruct (axis_move c dt (left (Player.rect p)) hi)
          as [Hx1 [Hx2 Hx3]];
        [vm_compute; discriminate|vm_compute; discriminate|exact Hd
        |unfold SCREEN_WIDTH; lia|]
    end;
    match goal with
    | |- context [clamp (top (Player.rect p) + py_int (?c * _ * _)) 0 ?hi] =>
        destruct (axis_move c dt (top (Player.rect p)) hi)
          as [Hy1 [Hy2 Hy3]];
        [vm_compute; discriminate|vm_compute; discriminate|exact Hd
        |unfold SCREEN_HEIGHT; lia|]
    end;
    (split; (split; [assumption|]); split; intro Hk;
     first [discriminate Hk
           |apply Hx2; vm_compute; discriminate
           |apply Hx3; vm_compute; discriminate
           |apply Hy2; vm_compute; discriminate
           |apply Hy3; vm_compute; discriminate]).
Qed.

(** An update never carries the avatar further along an axis than
    [PLAYER_SPEED * dt] pixels rounded up to a whole pixel: the
    truncation and the clamp only shorten the move.  Stated for an avatar
    inside the playfield and [dt >= 0]. *)
Theorem Player_update_speed_limit (dt : Q) (keys : Keys) (p : Player.t) :
  Player.inside_playfield p -> (0 <= dt)%Q ->
  Z.abs (left (Player.rect (Player.update dt keys p)) - left (Player.rect p))
    <= Qceiling (300 * dt) /\
  Z.abs (top (Player.rect (Player.update dt keys p)) - top (Player.rect p))
    <= Qceiling (300 * dt).
Proof.
  intros Hp Hd.
  destruct (Player_update_axes dt keys p Hp Hd) as [[Hx _] [Hy _]].
  pose proof (Qle_ceiling (300 * dt)) as Hc.
  split; rewrite Zle_Qle; eapply Qle_trans; eassumption.
Qed.

Lemma Player_update_speed_limit_witness :
  Z.abs (left (Player.rect
           (Player.update (29 # 100) right_only (Player.init 400 300)))
         - left (Player.rect (Player.init 400 300))) <= 87 /\
  Z.abs (top (Player.rect
           (Player.update (29 # 100) right_only (Player.init 400 300)))
         - top (Player.rect (Player.init 400 300))) <= 87.
Proof.
  apply (Player_update_speed_limit (29 # 100) right_only (Player.init 400 300)).
  - unfold Player.inside_playfield. simpl. lia.
  - vm_compute. discriminate.
Defined.

(** The avatar moves only where a held key sends it: with no left key
    (arrow or A) it does not move left, with no right key not right, with
    no up key not up, with no down key not down. *)
Theorem Player_update_direction (dt : Q) (keys : Keys) (p : Player.t) :
  Player.inside_playfield p -> (0 <= dt)%Q ->
  (K_LEFT keys || K_a keys = false ->
     left (Player.rect p) <= left (Player.rect (Player.update dt keys p))) /\
  (K_RIGHT keys || K_d keys = false ->
     left (Player.rect (Player.update dt keys p)) <= left (Player.rect p)) /\
  (K_UP keys || K_w keys = false ->
     top (Player.rect p) <= top (Player.rect (Player.update dt keys p))) /\
  (K_DOWN keys || K_s keys = false ->
     top (Player.rect (Player.update dt keys p)) <= top (Player.rect p)).
Proof.
  intros Hp Hd.
  destruct (Player_update_axes dt keys p Hp Hd)
    as [[_ [Hx1 Hx2]] [_ [Hy1 Hy2]]].
  repeat split; assumption.
Qed.

Lemma Player_update_direction_witness :
  left (Player.rect (Player.init 400 300)) <=
    left (Player.rect (Player.update (1 # 60) right_down (Player.init 400 300)))
  /\
  top (Player.rect (Player.init 400 300)) <=
    top (Player.rect (Player.update (1 # 60) right_down (Player.init 400 300))).
Proof.
  destruct (Player_update_direction (1 # 60) right_down (Player.init 400 300))
    as [Hl [_ [Hu _]]].
  - unfold Player.inside_playfield. simpl. lia.
  - vm_compute. discriminate.
  - split; [apply Hl|apply Hu]; reflexivity.
Defined.

Lemma clamp_Z_id (v lo hi : Z) : lo <= v <= hi -> clamp v lo hi = v.
Proof.
  intro H. unfold clamp, py_max, py_min. cbn [ltb PyOrd_Z].
  destruct (Z.ltb_spec hi v); [lia|].
  destruct (Z.ltb_spec lo v); lia.
Qed.

Lemma py_int_zero_times (a b : Q) : py_int (inject_Z 0 * a * b) = 0.
Proof. destruct a, b. reflexivity. Qed.

(** With no movement key held, or with opposite keys held together, an
    avatar inside the playfield stays where it is, whatever [dt] is. *)
Theorem Player_update_idle (dt : Q) (keys : Keys) (p : Player.t) :
  Player.inside_playfield p ->
  K_LEFT keys || K_a keys = K_RIGHT keys || K_d keys ->
  K_UP keys || K_w keys = K_DOWN keys || K_s keys ->
  Player.update dt keys p = p.
Proof.
  intros [Hl1 [Hl2 [Ht1 Ht2]]] Hx Hy.
  unfold Player.update. rewrite <- Hx, <- Hy.
  destruct p as [[l t w h]]. cbn [Player.rect left top width height] in *.
  destruct (K_LEFT keys || K_a keys), (K_UP keys || K_w keys);
    cbn [Z.add Z.sub Z.opp Z.eqb negb andb Z.pos_sub Pos.eqb];
    rewrite !py_int_zero_times, !Z.add_0_r;
    rewrite !clamp_Z_id by (unfold SCREEN_WIDTH, SCREEN_HEIGHT; lia);
    reflexivity.
Qed.

Lemma Player_update_idle_witness :
  Player.update (1 # 60) left_and_right (Player.init 400 300) =
  Player.init 400 300.
Proof.
  apply (Player_update_idle (1 # 60) left_and_right (Player.init 400 300)).
  - unfold Player.inside_playfield. simpl. lia.
  - reflexivity.
  - reflexivity.
Defined.

(** ** The player and the C integers of the rectangle *)

Lemma fits_c_int_true (v : Z) :
  C_INT_MIN <= v <= C_INT_MAX -> fits_c_int v = true.
Proof.
  intros [H1 H2]. unfold fits_c_int.
  apply andb_true_intro. split; apply Z.leb_le; assumption.
Qed.

(** A call that returns has done the arithmetic of [Player.update]. *)
Lemma update_c_returned (dt : Q) (keys : Keys) (p p' : Player.t) :
  Player.update_c dt keys p = Player.Returned p' ->
  p' = Player.update dt keys p.
Proof.
  unfold Player.update_c, Player.update. cbv zeta.
  repeat match goal with
    | |- context [fits_c_int ?v] => destruct (fits_c_int v)
    end; cbn [negb]; intro H; try discriminate H.
  injection H as <-. reflexivity.
Qed.

(** With a time step of at most [MAX_DT] the truncated move of an axis is
    at most 2100000000 pixels either way. *)
Lemma move_bound (c dt : Q) :
  (-1 <= c)%Q -> (c <= 1)%Q -> (0 <= dt)%Q -> (dt <= MAX_DT)%Q ->
  -2100000000 <= py_int (c * inject_Z PLAYER_SPEED * dt) <= 2100000000.
Proof.
  intros Hc1 Hc2 Hd Hm. unfold MAX_DT in Hm.
  change (inject_Z PLAYER_SPEED) with (300 # 1).
  set (q := (c * (300 # 1) * dt)%Q).
  assert (Hup : (0 <= (1 - c) * dt)%Q) by (apply Qmult_le_0_compat; lra).
  assert (Hdn : (0 <= (c + 1) * dt)%Q) by (apply Qmult_le_0_compat; lra).
  assert (Hq1 : (q <= inject_Z 2100000000)%Q) by (unfold q, inject_Z; lra).
  assert (Hq2 : (inject_Z (-2100000000) <= q)%Q) by (unfold q, inject_Z; lra).
  destruct (Qlt_le_dec q 0) as [Hneg|Hpos].
  - destruct (py_int_nonpos q (Qlt_le_weak _ _ Hneg)) as [K1 K2].
    split; [|lia]. rewrite Zle_Qle. eapply Qle_trans; eassumption.
  - destruct (py_int_nonneg q Hpos) as [K1 K2].
    split; [lia|]. rewrite Zle_Qle. eapply Qle_trans; eassumption.
Qed.

(** With a time step of at most [MAX_DT] every assignment of a call on an
    avatar inside the playfield fits, and the call returns. *)
Lemma update_c_returns (dt : Q) (keys : Keys) (p : Player.t) :
  size_40 p -> Player.inside_playfield p ->
  (0 <= dt)%Q -> (dt <= MAX_DT)%Q ->
  Player.update_c dt keys p = Player.Returned (Player.update dt keys p).
Proof.
  intros [Hw Hh] [Hl1 [Hl2 [Ht1 Ht2]]] Hd Hm.
  unfold Player.update_c, Player.update. cbv zeta.
  rewrite Hw, Hh in *.
  unfold SCREEN_WIDTH, SCREEN_HEIGHT in *.
  destruct (K_LEFT keys || K_a keys), (K_RIGHT keys || K_d keys),
           (K_UP keys || K_w keys), (K_DOWN keys || K_s keys);
    match goal with
    | |- context [left (Player.rect p) + py_int (?c * _ * _)] =>
        pose proof (move_bound c dt ltac:(vm_compute; discriminate)
                      ltac:(vm_compute; discriminate) Hd Hm) as Hx
    end;
    match goal with
    | |- context [top (Player.rect p) + py_int (?c * _ * _)] =>
        pose proof (move_bound c dt ltac:(vm_compute; discriminate)
                      ltac:(vm_compute; discriminate) Hd Hm) as Hy
    end;
    repeat match goal with
      | |- context [fits_c_int (clamp ?v 0 ?hi)] =>
          pose proof (clamp_Z_between v 0 hi ltac:(lia));
          rewrite (fits_c_int_true (clamp v 0 hi))
            by (unfold C_INT_MIN, C_INT_MAX; lia)
      | |- context [fits_c_int ?v] =>
          rewrite (fits_c_int_true v)
            by (unfold C_INT_MIN, C_INT_MAX; lia)
      end;
    reflexivity.
Qed.

Lemma calls_returned_inside (inputs : list (Q * Keys)) :
  forall p, size_40 p ->
  Forall (fun o => forall q, o = Player.Returned q ->
                             Player.inside_playfield q)
         (Player.calls inputs p).
Proof.
  induction inputs as [|[dt keys] rest IH]; intros p Hs; cbn [Player.calls].
  - constructor.
  - destruct (Player.update_c dt keys p) as [p'|p'] eqn:E.
    + apply update_c_returned in E. subst p'.
      pose proof (Player_trace_invariant [(dt, keys)] p Hs) as Hinv.
      cbn [Player.trace] in Hinv. apply Forall_inv in Hinv.
      destruct Hinv as [Hs' Hin].
      constructor; [|apply IH; exact Hs'].
      intros q Hq. injection Hq as <-. exact Hin.
    + constructor; [|constructor]. intros q Hq. discriminate Hq.
Qed.

Lemma calls_all_return (inputs : list (Q * Keys)) :
  forall p, size_40 p -> Player.inside_playfield p ->
  Forall (fun i => 0 <= fst i /\ fst i <= MAX_DT)%Q inputs ->
  Player.calls inputs p = map Player.Returned (Player.trace inputs p).
Proof.
  induction inputs as [|[dt keys] rest IH]; intros p Hs Hin Hall;
    cbn [Player.calls Player.trace map].
  - reflexivity.
  - inversion Hall as [|i l [Hd Hm] Hrest]; subst. cbn [fst] in Hd, Hm.
    rewrite (update_c_returns dt keys p Hs Hin Hd Hm).
    pose proof (Player_trace_invariant [(dt, keys)] p Hs) as Hinv.
    cbn [Player.trace] in Hinv. apply Forall_inv in Hinv.
    destruct Hinv as [Hs' Hin'].
    rewrite (IH _ Hs' Hin' Hrest). reflexivity.
Qed.

(** C5, as the code has it: from the avatar centred by [Player(400, 300)],
    along every finite sequence of [Player.update] calls with [dt >= 0]
    and any keys, after every call that returns the rectangle satisfies
    [0 <= left], [left + width <= 800], [0 <= top] and
    [top + height <= 600]; and every call returns when its [dt] is at most
    [MAX_DT], since every assignment to the rectangle then fits a C
    integer. *)
Theorem avatar_containment_when_calls_return (inputs : list (Q * Keys)) :
  Forall (fun i => 0 <= fst i)%Q inputs ->
  Forall (fun o => forall q, o = Player.Returned q ->
                             Player.inside_playfield q)
         (Player.calls inputs
            (Player.init (SCREEN_WIDTH / 2) (SCREEN_HEIGHT / 2))) /\
  (Forall (fun i => fst i <= MAX_DT)%Q inputs ->
   Player.calls inputs (Player.init (SCREEN_WIDTH / 2) (SCREEN_HEIGHT / 2)) =
   map Player.Returned
       (Player.trace inputs
          (Player.init (SCREEN_WIDTH / 2) (SCREEN_HEIGHT / 2)))).
Proof.
  intro Hpos. split.
  - apply calls_returned_inside, Player_init_size.
  - intro Hmax. apply calls_all_return.
    + apply Player_init_size.
    + unfold Player.inside_playfield. cbn. lia.
    + rewrite Forall_forall in *. intros i Hi. split; auto.
Qed.

Lemma avatar_containment_when_calls_return_witness :
  Forall (fun o => forall q, o = Player.Returned q ->
                             Player.inside_playfield q)
         (Player.calls [((1 # 60)%Q, right_down); (100 # 1, right_down)%Q]
            (Player.init (SCREEN_WIDTH / 2) (SCREEN_HEIGHT / 2))) /\
  Player.calls [((1 # 60)%Q, right_down); (100 # 1, right_down)%Q]
    (Player.init (SCREEN_WIDTH / 2) (SCREEN_HEIGHT / 2)) =
  map Player.Returned
      (Player.trace [((1 # 60)%Q, right_down); (100 # 1, right_down)%Q]
         (Player.init (SCREEN_WIDTH / 2) (SCREEN_HEIGHT / 2))).
Proof.
  destruct (avatar_containment_when_calls_return
              [((1 # 60)%Q, right_down); (100 # 1, right_down)%Q])
    as [Hin Hret].
  - repeat constructor; vm_compute; discriminate.
  - split; [exact Hin|]. apply Hret.
    repeat constructor; vm_compute; discriminate.
Defined.

(** C5 as the design document states it fails: the second call of
    [overflow_inputs] sets [rect.x] to 2147483432, then the assignment of
    2147483992 to [rect.y] raises, and the call leaves the rectangle with
    its left edge far outside the playfield. *)
Lemma avatar_containment_counterexample :
  Forall (fun i => 0 <= fst i)%Q overflow_inputs /\
  Player.calls overflow_inputs (Player.init 400 300) =
    [ Player.Returned (Player.mk (mkRect 0 560 40 40));
      Player.Raised (Player.mk (mkRect 2147483432 560 40 40)) ] /\
  ~ Forall (fun o => Player.inside_playfield (Player.state o))
           (Player.calls overflow_inputs (Player.init 400 300)).
Proof.
  split; [repeat constructor; vm_compute; discriminate|].
  split; [vm_compute; reflexivity|].
  intro Hall. inversion Hall as [|o1 l1 _ Hrest]; subst.
  inversion Hrest as [|o2 l2 Hbad _]; subst.
  vm_compute in Hbad. destruct Hbad as [_ [Hbad _]]. apply Hbad. reflexivity.
Qed.

(** ** The generator, the spawn of the enemy and of the coins *)

Lemma randint_range (a b : Z) (g : Random) :
  a <= b -> a <= fst (randint a b g) <= b.
Proof.
  intro H. unfold randint, bind, next_raw, ret. cbn [fst].
  pose proof (Z.mod_pos_bound (raw g (pos g)) (b - a + 1) ltac:(lia)). lia.
Qed.

Lemma Enemy_init_position `{Libm} (g : Random) :
  Enemy.x (fst (Enemy.init g)) = inject_Z (25 + raw g (pos g) mod 751) /\
  Enemy.y (fst (Enemy.init g)) = inject_Z (25 + raw g (S (pos g)) mod 551).
Proof. split; reflexivity. Qed.

Lemma Enemy_init_in_bounds `{Libm} (g : Random) :
  Enemy.contained (fst (Enemy.init g)) /\
  snd (Enemy.init g) = mkRandom (raw g) (pos g + 3).
Proof.
  split.
  - destruct (Enemy_init_position g) as [Hx Hy].
    unfold Enemy.contained. rewrite Hx, Hy.
    pose proof (Z.mod_pos_bound (raw g (pos g)) 751 ltac:(lia)).
    pose proof (Z.mod_pos_bound (raw g (S (pos g))) 551 ltac:(lia)).
    unfold Qle. cbn [Qnum Qden inject_Z]. lia.
  - destruct (Enemy_init_draws g) as [e He]. rewrite He. cbn [snd].
    f_equal. lia.
Qed.

(** A new enemy starts with its centre in [25, 775] x [25, 575], whatever
    the generator draws and whatever [math.cos] and [math.sin] return, and
    it takes three draws. *)
Theorem Enemy_init_contained `{Libm} (g : Random) :
  Enemy.contained (fst (Enemy.init g)) /\
  snd (Enemy.init g) = mkRandom (raw g) (pos g + 3).
Proof. apply Enemy_init_in_bounds. Qed.

(** A respawned coin lies in [20, 780] x [20, 580], is not collected, and
    the respawn takes two draws, whatever the generator draws. *)
Theorem Coin_respawn_in_margin (g : Random) :
  in_margin (fst (Coin.respawn g)) /\
  Coin.collected (fst (Coin.respawn g)) = false /\
  snd (Coin.respawn g) = mkRandom (raw g) (pos g + 2).
Proof.
  rewrite respawn_draws. cbn [fst snd]. unfold in_margin, coin_at.
  cbn [Coin.x Coin.y Coin.collected].
  pose proof (Z.mod_pos_bound (raw g (pos g)) 761 ltac:(lia)).
  pose proof (Z.mod_pos_bound (raw g (S (pos g))) 561 ltac:(lia)).
  repeat split; try lia. f_equal. lia.
Qed.

(** ** The flight of the enemy *)

(** An enemy that touched no wall and that an update leaves on a wall
    heads away from that wall afterwards: it reached the wall by its own
    move, and the bounce turned it back.  Stated for [dt >= 0]. *)
Theorem Enemy_leaves_wall (dt : Q) (e : Enemy.t) :
  off_the_walls e -> (0 <= dt)%Q ->
  ((Enemy.x (Enemy.update dt e) == 25 -> 0 < Enemy.vx (Enemy.update dt e)) /\
   (Enemy.x (Enemy.update dt e) == 775 -> Enemy.vx (Enemy.update dt e) < 0) /\
   (Enemy.y (Enemy.update dt e) == 25 -> 0 < Enemy.vy (Enemy.update dt e)) /\
   (Enemy.y (Enemy.update dt e) == 575 -> Enemy.vy (Enemy.update dt e) < 0))%Q.
Proof.
  intros [Hx1 [Hx2 [Hy1 Hy2]]] Hd.
  assert (Sx : forall v : Q, (v * dt < 0 -> v < 0)%Q).
  { intros v Hv. destruct (Qlt_le_dec v 0) as [Hn|Hp]; [exact Hn|].
    assert (0 <= v * dt)%Q by (apply Qmult_le_0_compat; assumption). lra. }
  assert (Sy : forall v : Q, (0 < v * dt -> 0 < v)%Q).
  { intros v Hv. destruct (Qlt_le_dec 0 v) as [Hp|Hn]; [exact Hp|].
    assert (0 <= (- v) * dt)%Q by (apply Qmult_le_0_compat; lra). lra. }
  pose proof (Sx (Enemy.vx e)) as Sx1. pose proof (Sy (Enemy.vx e)) as Sx2.
  pose proof (Sx (Enemy.vy e)) as Sy1. pose proof (Sy (Enemy.vy e)) as Sy2.
  clear Sx Sy.
  enemy_cases;
    unfold ENEMY_RADIUS, SCREEN_WIDTH, SCREEN_HEIGHT in *;
    simpl Z.sub in *; unfold inject_Z in *;
    repeat split; intro Heq; lra.
Qed.

Lemma Enemy_leaves_wall_witness :
  (Enemy.x (Enemy.update (1 # 60) corner_enemy) == 25 ->
   0 < Enemy.vx (Enemy.update (1 # 60) corner_enemy))%Q /\
  (Enemy.y (Enemy.update (1 # 60) corner_enemy) == 575 ->
   Enemy.vy (Enemy.update (1 # 60) corner_enemy) < 0)%Q.
Proof.
  destruct (Enemy_leaves_wall (1 # 60) corner_enemy) as [H1 [_ [_ H4]]].
  - unfold off_the_walls, corner_enemy; simpl.
    repeat split; reflexivity.
  - vm_compute. discriminate.
  - split; assumption.
Defined.

(** An update never moves the centre of an enemy that was inside its
    bounds against its velocity: with [vx >= 0] the centre does not go
    left, with [vx <= 0] not right, and the same on the other axis, the
    bounces included.  Stated for [dt >= 0]. *)
Theorem Enemy_update_direction (dt : Q) (e : Enemy.t) :
  Enemy.contained e -> (0 <= dt)%Q ->
  ((0 <= Enemy.vx e -> Enemy.x e <= Enemy.x (Enemy.update dt e)) /\
   (Enemy.vx e <= 0 -> Enemy.x (Enemy.update dt e) <= Enemy.x e) /\
   (0 <= Enemy.vy e -> Enemy.y e <= Enemy.y (Enemy.update dt e)) /\
   (Enemy.vy e <= 0 -> Enemy.y (Enemy.update dt e) <= Enemy.y e))%Q.
Proof.
  intros [Hx1 [Hx2 [Hy1 Hy2]]] Hd.
  assert (Px : (0 <= Enemy.vx e -> 0 <= Enemy.vx e * dt)%Q)
    by (intro; apply Qmult_le_0_compat; assumption).
  assert (Nx : (Enemy.vx e <= 0 -> Enemy.vx e * dt <= 0)%Q).
  { intro Hv. assert (0 <= (- Enemy.vx e) * dt)%Q
      by (apply Qmult_le_0_compat; lra). lra. }
  assert (Py : (0 <= Enemy.vy e -> 0 <= Enemy.vy e * dt)%Q)
    by (intro; apply Qmult_le_0_compat; assumption).
  assert (Ny : (Enemy.vy e <= 0 -> Enemy.vy e * dt <= 0)%Q).
  { intro Hv. assert (0 <= (- Enemy.vy e) * dt)%Q
      by (apply Qmult_le_0_compat; lra). lra. }
  enemy_cases;
    unfold ENEMY_RADIUS, SCREEN_WIDTH, SCREEN_HEIGHT in *;
    simpl Z.sub in *; unfold inject_Z in *;
    repeat split; intro Hv;
    first [specialize (Px Hv) | specialize (Nx Hv)
          | specialize (Py Hv) | specialize (Ny Hv)]; lra.
Qed.

Lemma Enemy_update_direction_witness :
  (Enemy.x (Enemy.update (1 # 60) corner_enemy) <= Enemy.x corner_enemy /\
   Enemy.y corner_enemy <= Enemy.y (Enemy.update (1 # 60) corner_enemy))%Q.
Proof.
  destruct (Enemy_update_direction (1 # 60) corner_enemy) as [_ [H2 [H3 _]]].
  - unfold Enemy.contained, corner_enemy; simpl.
    repeat split; unfold Qle; simpl; lia.
  - vm_compute. discriminate.
  - split; [apply H2|apply H3]; vm_compute; discriminate.
Defined.

(** ** What every pass of the loop keeps *)

Lemma frame_player_eq (dt : Q) (keys : Keys) (s : Session) :
  Playing s -> player (frame dt keys s) = moved_player dt keys s.
Proof. intro H. frame_fields H. reflexivity. Qed.

Lemma frame_enemy_eq (dt : Q) (keys : Keys) (s : Session) :
  Playing s -> enemy (frame dt keys s) = moved_enemy dt s.
Proof. intro H. frame_fields H. reflexivity. Qed.

Lemma frame_rng_eq (dt : Q) (keys : Keys) (s : Session) :
  Playing s ->
  rng (frame dt keys s) =
  snd (respawn_if_all (map (collect (moved_player dt keys s)) (coins s))
                      (rng s)).
Proof.
  intro H. destruct H as [Ho Hw]. unfold frame, moved_player.
  rewrite Ho, Hw. cbn [orb].
  destruct (respawn_if_all _ _) as [cs g].
  destruct (decide _ _ _ _). reflexivity.
Qed.

Lemma Playing_or_over (s : Session) : Playing s \/ Lost s \/ Won s.
Proof.
  unfold Playing, Lost, Won.
  destruct (game_over s), (game_won s); auto.
Qed.

(** The collection loop leaves a coin where it is and never clears its
    flag. *)
Lemma collect_position (p : Player.t) (c : Coin.t) :
  Coin.x (collect p c) = Coin.x c /\ Coin.y (collect p c) = Coin.y c /\
  (Coin.collected c = true -> collect p c = c).
Proof.
  unfold collect. destruct (Coin.collected c); cbn [negb].
  - repeat split.
  - destruct (_ <=? _); repeat split; intro; discriminate.
Qed.

Lemma coin_at_in_margin (source : nat -> Z) (i : nat) :
  in_margin (coin_at source i) /\ Coin.collected (coin_at source i) = false.
Proof.
  unfold in_margin, coin_at. cbn [Coin.x Coin.y Coin.collected].
  pose proof (Z.mod_pos_bound (source i) 761 ltac:(lia)).
  pose proof (Z.mod_pos_bound (source (S i)) 561 ltac:(lia)).
  repeat split; lia.
Qed.

(** The coins a frame of a running match ends with: the right number,
    within the margin, not all collected. *)
Lemma frame_coins_ok (dt : Q) (keys : Keys) (s : Session) :
  Playing s ->
  length (coins s) = NUM_COINS ->
  Forall in_margin (coins s) ->
  length (coins (frame dt keys s)) = NUM_COINS /\
  Forall in_margin (coins (frame dt keys s)) /\
  forallb Coin.collected (coins (frame dt keys s)) = false.
Proof.
  intros Hp Hlen Hmar.
  destruct (forallb Coin.collected
              (map (collect (moved_player dt keys s)) (coins s))) eqn:Hall.
  - destruct (batch_respawn_same_frame dt keys s Hp Hall) as [Hc _].
    rewrite Hc, Hlen. repeat split.
    apply Forall_forall. intros c Hin. apply in_map_iff in Hin.
    destruct Hin as [k [<- _]]. apply coin_at_in_margin.
  - rewrite (frame_coins_eq dt keys s Hp). unfold respawn_if_all.
    rewrite Hall. unfold ret. cbn [fst]. repeat split.
    + rewrite length_map. exact Hlen.
    + apply Forall_forall. intros c Hin. apply in_map_iff in Hin.
      destruct Hin as [c0 [<- Hin0]].
      rewrite Forall_forall in Hmar. specialize (Hmar c0 Hin0).
      destruct (collect_position (moved_player dt keys s) c0) as [Hx [Hy _]].
      unfold in_margin in *. rewrite Hx, Hy. exact Hmar.
    + exact Hall.
Qed.

Lemma decide_not_won (h : bool) (t : Q) (sc : Z) (flags : bool * bool) :
  snd (decide h t sc flags) = false -> sc < WIN_SCORE.
Proof.
  unfold decide. destruct flags as [o w].
  destruct (Z.leb_spec WIN_SCORE sc) as [Hle|Hlt]; [|intros _; exact Hlt].
  destruct (Qle_bool t 0); destruct h; cbn [snd]; discriminate.
Qed.

Lemma count_collected_nonneg (cs : list Coin.t) : 0 <= count_collected cs.
Proof. unfold count_collected. lia. Qed.

(** A frame that leaves the match running ends before the twentieth
    second of survival. *)
Lemma frame_still_playing (dt : Q) (keys : Keys) (s : Session) :
  Playing s -> (0 <= elapsed_survival s)%Q -> (0 <= dt)%Q ->
  Playing (frame dt keys s) ->
  (elapsed_survival (frame dt keys s) < 20)%Q.
Proof.
  intros Hp He Hd [_ Hw].
  pose proof (frame_flags_eq dt keys s Hp) as Hf.
  assert (Hs : frame_score dt s < WIN_SCORE).
  { apply (decide_not_won (hit (moved_player dt keys s) (moved_enemy dt s))
             (time_left s - dt)%Q _ (false, false)).
    rewrite <- Hf. exact Hw. }
  rewrite (frame_elapsed_eq dt keys s Hp).
  unfold frame_score, WIN_SCORE in Hs.
  assert (Hq : (0 <= elapsed_survival s + dt)%Q) by lra.
  rewrite (py_int_floor _ Hq) in Hs.
  pose proof (count_collected_nonneg (coins s)).
  pose proof (Qlt_floor (elapsed_survival s + dt)) as Hfl.
  assert (Hz : Qfloor (elapsed_survival s + dt) + 1 <= 20) by lia.
  rewrite Zle_Qle in Hz.
  eapply Qlt_le_trans; [exact Hfl|exact Hz].
Qed.

Lemma frame_well_formed (dt : Q) (keys : Keys) (s : Session) :
  well_formed s -> (0 <= dt)%Q -> well_formed (frame dt keys s).
Proof.
  intros Hc Hd.
  destruct (Playing_or_over s) as [Hp|Hend];
    [|rewrite (frame_over dt keys s Hend); exact Hc].
  destruct Hc as [Hsz [Hin [Hen [Hlen [Hmar [Hnot [He [Htl Hlt]]]]]]]].
  destruct (frame_coins_ok dt keys s Hp Hlen Hmar) as [C1 [C2 C3]].
  unfold well_formed.
  rewrite (frame_player_eq dt keys s Hp), (frame_enemy_eq dt keys s Hp).
  unfold moved_player, moved_enemy.
  assert (Hsz' : size_40 (Player.update dt keys (player s))).
  { destruct Hsz as [Hw Hh].
    split; [rewrite Player_update_width|rewrite Player_update_height];
      assumption. }
  split; [exact Hsz'|]. split.
  { destruct Hsz as [Hw Hh]. destruct Hsz' as [Hw' Hh'].
    pose proof (Player_update_inside dt keys (player s)) as Hi.
    unfold SCREEN_WIDTH, SCREEN_HEIGHT in Hi. unfold Player.inside_playfield.
    rewrite Hw', Hh'. rewrite Hw, Hh in Hi. apply Hi; lia. }
  split; [apply Enemy_update_contained|].
  split; [exact C1|]. split; [exact C2|]. split; [exact C3|].
  split; [apply frame_elapsed_nonneg; assumption|].
  split.
  - rewrite (frame_time_left_eq dt keys s Hp). lra.
  - apply frame_still_playing; assumption.
Qed.

(** A frame keeps the session well formed, and the call of
    [player.update] it makes returns with the player the frame ends with.
    Stated for a time step from 0 to [MAX_DT], within which every
    assignment to the rectangle fits a C integer. *)
Theorem frame_keeps_well_formed (dt : Q) (keys : Keys) (s : Session) :
  well_formed s -> (0 <= dt)%Q -> (dt <= MAX_DT)%Q ->
  well_formed (frame dt keys s) /\
  (Playing s ->
   Player.update_c dt keys (player s) =
   Player.Returned (player (frame dt keys s))).
Proof.
  intros Hc Hd Hm. split; [apply frame_well_formed; assumption|].
  intro Hp. rewrite (frame_player_eq dt keys s Hp). unfold moved_player.
  destruct Hc as [Hsz [Hin _]].
  apply update_c_returns; assumption.
Qed.

Lemma midgame_consistent : consistent midgame_session.
Proof.
  unfold consistent, size_40, Player.inside_playfield, Enemy.contained.
  cbn [midgame_session player enemy coins elapsed_survival time_left
       Player.rect left top width height Enemy.x Enemy.y].
  repeat split; try lia; try reflexivity; try (vm_compute; discriminate).
  repeat constructor; cbn; lia.
Qed.

Lemma consistent_well_formed (s : Session) : consistent s -> well_formed s.
Proof.
  intros [Hsz [Hin [Hen [Hlen [Hmar [Hnot [He [Hsum Hlt]]]]]]]].
  unfold well_formed. repeat split; try assumption; try apply Hsz;
    try apply Hin; try apply Hen.
  lra.
Qed.

Lemma midgame_well_formed : well_formed midgame_session.
Proof. apply consistent_well_formed, midgame_consistent. Qed.

Lemma frame_keeps_well_formed_witness :
  well_formed (frame (1 # 60) right_only midgame_session) /\
  Player.update_c (1 # 60) right_only (player midgame_session) =
  Player.Returned (player (frame (1 # 60) right_only midgame_session)).
Proof.
  destruct (frame_keeps_well_formed (1 # 60) right_only midgame_session)
    as [Hwf Hret].
  - exact midgame_well_formed.
  - vm_compute. discriminate.
  - vm_compute. discriminate.
  - split; [exact Hwf|]. apply Hret. split; reflexivity.
Defined.

(** A coin loop returns the coin it was given or a coin of new draws. *)
Lemma fix_coin_origin (fuel : nat) (p : Player.t) :
  forall c g c' g',
    fix_coin fuel p c g = Some (c', g') ->
    c' = c \/ exists i, c' = coin_at (raw g) i.
Proof.
  induction fuel as [|n IH]; intros c g c' g' H; cbn [fix_coin] in H;
    destruct (too_close p c) eqn:E; try discriminate.
  - injection H as <- <-. left. reflexivity.
  - rewrite respawn_draws in H. apply IH in H. cbn [raw] in H.
    destruct H as [->|[i ->]]; right; eexists; reflexivity.
  - injection H as <- <-. left. reflexivity.
Qed.

Lemma fix_coins_initial_origin (fuel : nat) (p : Player.t)
  (cs : list Coin.t) :
  forall g cs' g',
    fix_coins_initial fuel p cs g = Some (cs', g') ->
    Forall (fun c' => In c' cs \/ exists i, c' = coin_at (raw g) i) cs'.
Proof.
  induction cs as [|c rest IH]; intros g cs' g' H; cbn [fix_coins_initial] in H.
  - injection H as <- <-. constructor.
  - destruct (fix_coin fuel p c g) as [[c1 g1]|] eqn:E1; [|discriminate].
    destruct (fix_coins_initial fuel p rest g1) as [[r2 g2]|] eqn:E2;
      [|discriminate].
    injection H as <- <-.
    pose proof (fix_coin_sound _ _ _ _ _ _ E1) as [_ Hr].
    constructor.
    + destruct (fix_coin_origin _ _ _ _ _ _ E1) as [->|Hi];
        [left; left; reflexivity|right; exact Hi].
    + eapply Forall_impl; [|exact (IH _ _ _ E2)].
      intros c' [Hin|[i Hi]]; [left; right; exact Hin|].
      right. exists i. rewrite <- Hr. exact Hi.
Qed.

Section NewSession.

Context `{Libm}.

Lemma new_session_coins (fuel : nat) (g : Random) (s : Session) :
  new_session fuel g = Some s ->
  Forall (fun c => exists i, c = coin_at (raw g) i) (coins s) /\
  enemy s = fst (Enemy.init g) /\
  raw (rng s) = raw g.
Proof.
  unfold new_session. destruct (Enemy_init_draws g) as [e He]. rewrite He.
  unfold Coin.init. rewrite replicateM_respawn. cbn [raw pos fst].
  destruct (fix_coins_initial _ _ _ _) as [[cs g3]|] eqn:E; [|discriminate].
  intro Hs. injection Hs as <-. cbn [coins enemy rng].
  pose proof (fix_coins_initial_origin _ _ _ _ _ _ E) as Ho.
  apply fix_coins_initial_sound in E. destruct E as [_ [_ Hr]].
  cbn [raw] in Ho, Hr. split; [|split; [reflexivity|exact Hr]].
  eapply Forall_impl; [|exact Ho].
  intros c [Hin|Hi]; [|exact Hi].
  apply in_map_iff in Hin. destruct Hin as [k [<- _]].
  eexists. reflexivity.
Qed.

Lemma new_session_is_consistent (fuel : nat) (g : Random) (s : Session) :
  new_session fuel g = Some s -> consistent s.
Proof.
  intro Hs.
  destruct (new_session_coins fuel g s Hs) as [Hcoins [Hen _]].
  pose proof (new_session_sound fuel g s Hs) as Hfresh.
  destruct Hfresh as [_ [Hel [Htl [Hplay [Hpl [_ [_ [Hlen _]]]]]]]].
  unfold consistent. rewrite Hpl, Hen, Hel, Htl.
  split; [apply Player_init_size|].
  split; [unfold Player.inside_playfield; cbn; lia|].
  split; [apply Enemy_init_in_bounds|].
  split; [exact Hlen|].
  split.
  { eapply Forall_impl; [|exact Hcoins].
    intros c [i ->]. apply coin_at_in_margin. }
  split.
  { destruct (coins s) as [|c rest]; [discriminate Hlen|].
    apply Forall_inv in Hcoins. destruct Hcoins as [i ->]. reflexivity. }
  repeat split; vm_compute; discriminate.
Qed.

(** The start of the program and a restart build a consistent session,
    whatever the generator drew; and they do build one, the coin loops of
    line 171 end, whenever the source of draws is fair. *)
Theorem new_session_consistent (g : Random) :
  (fair_source (raw g) -> exists fuel s, new_session fuel g = Some s) /\
  (forall fuel s, new_session fuel g = Some s -> consistent s).
Proof.
  split.
  - apply new_session_ends.
  - intros fuel s. apply new_session_is_consistent.
Qed.

End NewSession.

Lemma new_session_consistent_witness :
  (exists fuel s,
     @new_session sample_libm fuel (rng lost_session) = Some s) /\
  (forall fuel s,
     @new_session sample_libm fuel (rng lost_session) = Some s ->
     consistent s).
Proof.
  destruct (@new_session_consistent sample_libm (rng lost_session))
    as [Hends Hsound].
  split; [apply Hends; exact stubborn_source_fair|exact Hsound].
Defined.

(** ** The end of a match *)

Lemma frames_over (inputs : list (Q * Keys)) :
  forall s, Lost s \/ Won s -> frames inputs s = s.
Proof.
  induction inputs as [|[dt keys] rest IH]; intros s Hend; cbn [frames].
  - reflexivity.
  - rewrite (frame_over dt keys s Hend). apply IH. exact Hend.
Qed.

(** Once a match is Lost or Won, no sequence of frames changes anything of
    the session: only a restart does. *)
Theorem match_over_is_frozen (inputs : list (Q * Keys)) (s : Session) :
  Lost s \/ Won s -> frames inputs s = s.
Proof. apply frames_over. Qed.

Lemma match_over_is_frozen_witness :
  frames [((1 # 60)%Q, right_down); ((1 # 2)%Q, no_keys)] lost_session =
  lost_session.
Proof.
  apply (match_over_is_frozen
           [((1 # 60)%Q, right_down); ((1 # 2)%Q, no_keys)] lost_session).
  left. reflexivity.
Defined.

(** In a consistent session the timer never loses a match: a frame of a
    running match without a collision does not end Lost.  When the time
    left reaches 0 the survival time has reached 45, so the score is at
    least [WIN_SCORE] and line 242 is not taken. *)
Theorem only_a_collision_loses (dt : Q) (keys : Keys) (s : Session) :
  consistent s -> Playing s -> (0 <= dt)%Q ->
  hit (moved_player dt keys s) (moved_enemy dt s) = false ->
  ~ Lost (frame dt keys s).
Proof.
  intros Hc Hp Hd Hh.
  destruct Hc as [_ [_ [_ [_ [_ [_ [He [Hsum _]]]]]]]].
  pose proof (frame_flags_eq dt keys s Hp) as Hf. rewrite Hh in Hf.
  unfold Lost. intro Hl. rewrite Hl in Hf.
  unfold decide in Hf.
  destruct (Qle_bool (time_left s - dt) 0) eqn:Et.
  - apply Qle_bool_iff in Et.
    destruct (Z.leb_spec WIN_SCORE (frame_score dt s)) as [Hle|Hlt];
      [discriminate Hf|].
    unfold frame_score, WIN_SCORE in Hlt.
    assert (Hq : (45 <= elapsed_survival s + dt)%Q) by lra.
    assert (H0 : (0 <= elapsed_survival s + dt)%Q) by lra.
    rewrite (py_int_floor _ H0) in Hlt.
    pose proof (Qfloor_resp_le _ _ Hq) as Hfl.
    change (Qfloor 45) with 45 in Hfl.
    pose proof (count_collected_nonneg (coins s)). lia.
  - destruct (WIN_SCORE <=? frame_score dt s); discriminate Hf.
Qed.

Lemma only_a_collision_loses_witness :
  ~ Lost (frame (50 # 1) right_only midgame_session).
Proof.
  apply (only_a_collision_loses (50 # 1) right_only midgame_session).
  - exact midgame_consistent.
  - split; reflexivity.
  - vm_compute. discriminate.
  - vm_compute. reflexivity.
Defined.

(** In a consistent session a frame of a running match that takes the
    survival time to 20 seconds or more ends Won, whatever else happens in
    the frame; so while a match runs less than 20 seconds have passed. *)
Theorem twenty_seconds_win (dt : Q) (keys : Keys) (s : Session) :
  consistent s -> Playing s -> (0 <= dt)%Q ->
  (20 <= elapsed_survival s + dt)%Q ->
  Won (frame dt keys s).
Proof.
  intros Hc Hp Hd H20.
  destruct Hc as [_ [_ [_ [_ [_ [_ [He _]]]]]]].
  pose proof (frame_flags_eq dt keys s Hp) as Hf.
  assert (Hs : WIN_SCORE <= frame_score dt s).
  { unfold frame_score, WIN_SCORE.
    assert (H0 : (0 <= elapsed_survival s + dt)%Q) by lra.
    rewrite (py_int_floor _ H0).
    pose proof (Qfloor_resp_le _ _ H20) as Hfl.
    change (Qfloor 20) with 20 in Hfl.
    pose proof (count_collected_nonneg (coins s)). lia. }
  apply Z.leb_le in Hs. unfold decide in Hf. rewrite Hs in Hf.
  unfold Won.
  destruct (hit _ _); destruct (Qle_bool _ 0); congruence.
Qed.

Lemma twenty_seconds_win_witness :
  Won (frame (37 # 2) right_only midgame_session).
Proof.
  apply (twenty_seconds_win (37 # 2) right_only midgame_session).
  - exact midgame_consistent.
  - split; reflexivity.
  - vm_compute. discriminate.
  - vm_compute. discriminate.
Defined.

(** In a consistent session the score of a frame of a running match is
    the whole seconds survived plus at most four: the five coins are never
    all counted, because the frame that collects the last one clears the
    flags. *)
Theorem coins_add_at_most_four (dt : Q) (keys : Keys) (s : Session) :
  consistent s -> Playing s -> (0 <= dt)%Q ->
  Qfloor (elapsed_survival (frame dt keys s)) <= score (frame dt keys s) /\
  score (frame dt keys s) <= Qfloor (elapsed_survival (frame dt keys s)) + 4.
Proof.
  intros Hc Hp Hd.
  destruct Hc as [_ [_ [_ [Hlen [_ [Hnot [He _]]]]]]].
  rewrite (frame_score_from_start_flags dt keys s Hp He Hd).
  pose proof (count_collected_nonneg (coins s)).
  pose proof (count_collected_lt _ Hnot) as Hlt.
  rewrite Hlen in Hlt. unfold NUM_COINS in Hlt. lia.
Qed.

Lemma coins_add_at_most_four_witness :
  Qfloor (elapsed_survival (frame (1 # 60) right_only midgame_session))
    <= score (frame (1 # 60) right_only midgame_session) /\
  score (frame (1 # 60) right_only midgame_session)
    <= Qfloor (elapsed_survival (frame (1 # 60) right_only midgame_session)) + 4.
Proof.
  apply (coins_add_at_most_four (1 # 60) right_only midgame_session).
  - exact midgame_consistent.
  - split; reflexivity.
  - vm_compute. discriminate.
Defined.

(** ** Coins within a frame *)

(** In a frame of a running match that leaves some coin uncollected after
    the collection loop, no coin moves, no flag is cleared (the number of
    collected coins does not go down) and the generator is not read. *)
Theorem coins_stay_unless_batch_completes
  (dt : Q) (keys : Keys) (s : Session) :
  Playing s ->
  forallb Coin.collected
          (map (collect (moved_player dt keys s)) (coins s)) = false ->
  map Coin.x (coins (frame dt keys s)) = map Coin.x (coins s) /\
  map Coin.y (coins (frame dt keys s)) = map Coin.y (coins s) /\
  count_collected (coins s) <= count_collected (coins (frame dt keys s)) /\
  rng (frame dt keys s) = rng s.
Proof.
  intros Hp Hall.
  rewrite (frame_coins_eq dt keys s Hp), (frame_rng_eq dt keys s Hp).
  unfold respawn_if_all. rewrite Hall. unfold ret. cbn [fst snd].
  set (p := moved_player dt keys s). clearbody p. clear Hall.
  repeat split.
  - rewrite map_map. apply map_ext. intro c. apply collect_position.
  - rewrite map_map. apply map_ext. intro c. apply collect_position.
  - unfold count_collected. apply Nat2Z.inj_le.
    induction (coins s) as [|c rest IH]; cbn [map filter length]; [lia|].
    destruct (Coin.collected c) eqn:Ec.
    + destruct (collect_position p c) as [_ [_ Hk]]. rewrite (Hk Ec), Ec.
      cbn [length]. lia.
    + destruct (Coin.collected (collect p c)); cbn [length]; lia.
Qed.

Lemma coins_stay_witness :
  map Coin.x (coins (frame (1 # 60) right_only midgame_session)) =
    map Coin.x (coins midgame_session) /\
  map Coin.y (coins (frame (1 # 60) right_only midgame_session)) =
    map Coin.y (coins midgame_session) /\
  count_collected (coins midgame_session)
    <= count_collected (coins (frame (1 # 60) right_only midgame_session)) /\
  rng (frame (1 # 60) right_only midgame_session) = rng midgame_session.
Proof.
  apply (coins_stay_unless_batch_completes (1 # 60) right_only midgame_session).
  - split; reflexivity.
  - vm_compute. reflexivity.
Defined.

Lemma count_collected_none (cs : list Coin.t) :
  Forall (fun c => Coin.collected c = false) cs -> count_collected cs = 0.
Proof.
  unfold count_collected. induction 1 as [|c rest Hc _ IH]; cbn [filter].
  - reflexivity.
  - rewrite Hc. exact IH.
Qed.

(** After a frame that completed and respawned the batch, the next frame
    of the match scores the survival seconds alone: what the coins of the
    batch had added to the score is gone. *)
Theorem score_after_batch_respawn
  (dt dt2 : Q) (keys keys2 : Keys) (s : Session) :
  Playing s ->
  forallb Coin.collected
          (map (collect (moved_player dt keys s)) (coins s)) = true ->
  Playing (frame dt keys s) ->
  score (frame dt2 keys2 (frame dt keys s)) =
  py_int (elapsed_survival (frame dt2 keys2 (frame dt keys s))).
Proof.
  intros Hp Hall Hp1.
  destruct (batch_respawn_same_frame dt keys s Hp Hall) as [_ Hnone].
  rewrite (frame_score_eq dt2 keys2 _ Hp1), (frame_elapsed_eq dt2 keys2 _ Hp1).
  unfold frame_score. rewrite (count_collected_none _ Hnone). lia.
Qed.

Lemma score_after_batch_respawn_witness :
  score (frame (1 # 60) right_only
           (frame (1 # 60) right_only (approach_session all_coins_ahead))) =
  py_int (elapsed_survival
            (frame (1 # 60) right_only
               (frame (1 # 60) right_only (approach_session all_coins_ahead)))).
Proof.
  apply (score_after_batch_respawn (1 # 60) (1 # 60) right_only right_only
           (approach_session all_coins_ahead)).
  - split; reflexivity.
  - vm_compute. reflexivity.
  - split; vm_compute; reflexivity.
Defined.

(** Coins that are already clear of the avatar are left as they are by
    [fix_coins_initial], which then reads nothing from the generator, for
    any bound on the loops. *)
Theorem fix_coins_initial_keeps_clear_coins
  (fuel : nat) (p : Player.t) (cs : list Coin.t) (g : Random) :
  Forall (fun c => too_close p c = false) cs ->
  fix_coins_initial fuel p cs g = Some (cs, g).
Proof.
  induction 1 as [|c rest Hc _ IH]; cbn [fix_coins_initial].
  - reflexivity.
  - assert (Hf : fix_coin fuel p c g = Some (c, g)).
    { destruct fuel; cbn [fix_coin]; rewrite Hc; reflexivity. }
    rewrite Hf, IH. reflexivity.
Qed.

Lemma fix_coins_initial_keeps_clear_coins_witness :
  fix_coins_initial 0 (Player.init 400 300) far_coins
    (mkRandom sample_source 13) =
  Some (far_coins, mkRandom sample_source 13).
Proof.
  apply (fix_coins_initial_keeps_clear_coins 0 (Player.init 400 300)
           far_coins (mkRandom sample_source 13)).
  repeat constructor.
Defined.

(** ** The events of a pass *)

Section Events.

Context `{Libm}.

Lemma keydown_r_playing (fuel : nat) (s : Session) :
  Playing s -> keydown_r fuel s = Some s.
Proof.
  intros [Ho Hw]. unfold keydown_r. rewrite Ho, Hw. reflexivity.
Qed.

Lemma handle_events_playing (fuel : nat) (events : list Event) (s : Session) :
  Playing s ->
  handle_events fuel events s =
  if existsb is_quit events then Exited else Running s.
Proof.
  intro Hp. induction events as [|ev rest IH]; cbn [handle_events existsb].
  - reflexivity.
  - destruct ev as [|[| |]|]; cbn [is_quit orb]; try reflexivity;
      try exact IH.
    rewrite (keydown_r_playing fuel s Hp). exact IH.
Qed.

(** While the match runs the events cannot change the session: the
    restart key is ignored, and the pass either exits (a [QUIT] event or
    the escape key is among the events) or goes on with the session as it
    was, whatever the bound on the coin loops. *)
Theorem events_while_playing (fuel : nat) (events : list Event) (s : Session) :
  Playing s ->
  handle_events fuel events s =
  if existsb is_quit events then Exited else Running s.
Proof. apply handle_events_playing. Qed.

Lemma handle_events_restart
  (fuel : nat) (events : list Event) (s s' : Session) :
  Lost s \/ Won s ->
  In (KEYDOWN K_r) events ->
  handle_events fuel events s = Running s' ->
  new_session fuel (rng s) = Some s'.
Proof.
  intros Hend. induction events as [|ev rest IH]; intros Hin Hrun.
  - destruct Hin.
  - cbn [handle_events] in Hrun.
    destruct ev as [|[| |]|]; try discriminate Hrun.
    + assert (Hk : keydown_r fuel s = new_session fuel (rng s)).
      { unfold keydown_r.
        destruct Hend as [Hl|Hw]; unfold Lost, Won in *.
        - rewrite Hl. reflexivity.
        - rewrite Hw, orb_true_r. reflexivity. }
      rewrite Hk in Hrun.
      destruct (new_session fuel (rng s)) as [s1|] eqn:E1;
        [|discriminate Hrun].
      pose proof (new_session_sound fuel (rng s) s1 E1) as Hf.
      destruct Hf as [_ [_ [_ [Hp _]]]].
      rewrite (handle_events_playing fuel rest s1 Hp) in Hrun.
      destruct (existsb is_quit rest); [discriminate Hrun|].
      injection Hrun as <-. reflexivity.
    + apply IH; [|exact Hrun].
      destruct Hin as [Hd|Hin]; [discriminate Hd|exact Hin].
    + apply IH; [|exact Hrun].
      destruct Hin as [Hd|Hin]; [discriminate Hd|exact Hin].
Qed.

Lemma keydown_r_over (fuel : nat) (s : Session) :
  Lost s \/ Won s -> keydown_r fuel s = new_session fuel (rng s).
Proof.
  unfold keydown_r, Lost, Won. intros [Hl|Hw].
  - rewrite Hl. reflexivity.
  - rewrite Hw, orb_true_r. reflexivity.
Qed.

(** When the match is over and the coin loops of a restart end within the
    fuel, the events of a pass lead to an exit, to the session as it was
    or to the new session: never to a loop that does not end. *)
Lemma handle_events_over (fuel : nat) (events : list Event)
  (s s1 : Session) :
  Lost s \/ Won s ->
  new_session fuel (rng s) = Some s1 ->
  handle_events fuel events s = Exited \/
  handle_events fuel events s = Running s \/
  handle_events fuel events s = Running s1.
Proof.
  intros Hend Hnew.
  induction events as [|ev rest IH]; cbn [handle_events].
  - right. left. reflexivity.
  - destruct ev as [|[| |]|]; try (left; reflexivity); try exact IH.
    rewrite (keydown_r_over fuel s Hend), Hnew.
    pose proof (new_session_sound fuel (rng s) s1 Hnew) as Hf.
    destruct Hf as [_ [_ [_ [Hp _]]]].
    rewrite (handle_events_playing fuel rest s1 Hp).
    destruct (existsb is_quit rest); [left|right; right]; reflexivity.
Qed.

(** With a fair source of draws the events of a pass never hang: for
    some bound on the coin loops the pass exits or goes on. *)
Lemma handle_events_ends (events : list Event) (s : Session) :
  fair_source (raw (rng s)) ->
  exists fuel,
    handle_events fuel events s = Exited \/
    exists s', handle_events fuel events s = Running s'.
Proof.
  intro Hfair. destruct (Playing_or_over s) as [Hp|Hend].
  - exists O. rewrite (handle_events_playing O events s Hp).
    destruct (existsb is_quit events); [left|right; eexists]; reflexivity.
  - destruct (new_session_ends (rng s) Hfair) as [fuel [s1 Hnew]].
    exists fuel.
    destruct (handle_events_over fuel events s s1 Hend Hnew) as [H1|[H1|H1]];
      rewrite H1; [left|right; eexists|right; eexists]; reflexivity.
Qed.

Lemma loop_pass_ends (dt : Q) (events : list Event) (keys : Keys)
  (s : Session) :
  fair_source (raw (rng s)) ->
  exists fuel,
    loop_pass fuel dt events keys s = Exited \/
    exists s', loop_pass fuel dt events keys s = Running s'.
Proof.
  intro Hfair. destruct (handle_events_ends events s Hfair) as [fuel Hout].
  exists fuel. unfold loop_pass.
  destruct Hout as [->|[s1 ->]]; [left|right; eexists]; reflexivity.
Qed.

(** When the match is over and the restart key is among the events of a
    pass, a pass that goes on does so with the new session of the first
    restart key: later ones in the same pass do nothing.  And with a fair
    source of draws the events do end, in an exit or in a session. *)
Theorem restart_key_restarts_once (events : list Event) (s : Session) :
  Lost s \/ Won s ->
  In (KEYDOWN K_r) events ->
  (forall fuel s',
     handle_events fuel events s = Running s' ->
     new_session fuel (rng s) = Some s') /\
  (fair_source (raw (rng s)) ->
   exists fuel,
     handle_events fuel events s = Exited \/
     exists s', handle_events fuel events s = Running s').
Proof.
  intros Hend Hin. split.
  - intros fuel s'. apply handle_events_restart; assumption.
  - apply handle_events_ends.
Qed.

(** The pass of the loop that restarts also plays the first frame of the
    new match: after it the survival time is [dt], not 0, the time left is
    at most 45 and the score is the whole seconds of [dt].  And with a
    fair source of draws the pass does end, in an exit or in a session.
    Stated for a time step from 0 to [MAX_DT]. *)
Theorem restart_pass_plays_a_frame
  (dt : Q) (events : list Event) (keys : Keys) (s : Session) :
  Lost s \/ Won s ->
  In (KEYDOWN K_r) events ->
  (0 <= dt)%Q -> (dt <= MAX_DT)%Q ->
  (forall fuel s',
     loop_pass fuel dt events keys s = Running s' ->
     (elapsed_survival s' == dt)%Q /\ (time_left s' <= 45)%Q /\
     score s' = py_int (elapsed_survival s')) /\
  (fair_source (raw (rng s)) ->
   exists fuel,
     loop_pass fuel dt events keys s = Exited \/
     exists s', loop_pass fuel dt events keys s = Running s').
Proof.
  intros Hend Hin Hd Hm. split; [|apply loop_pass_ends].
  intros fuel s' Hpass. unfold loop_pass in Hpass.
  destruct (handle_events fuel events s) as [|s1|] eqn:E;
    try discriminate Hpass.
  injection Hpass as <-.
  pose proof (handle_events_restart fuel events s s1 Hend Hin E) as Hn.
  pose proof (new_session_sound fuel (rng s) s1 Hn) as Hf.
  destruct (new_session_coins fuel (rng s) s1 Hn) as [Hcoins _].
  destruct Hf as [_ [Hel [Htl [Hp _]]]].
  rewrite (frame_elapsed_eq dt keys s1 Hp), (frame_time_left_eq dt keys s1 Hp),
    (frame_score_eq dt keys s1 Hp).
  rewrite Hel, Htl. repeat split; try lra.
  unfold frame_score. rewrite Hel.
  rewrite count_collected_none; [lia|].
  eapply Forall_impl; [|exact Hcoins]. intros c [i ->]. reflexivity.
Qed.

Lemma handle_events_well_formed (fuel : nat) (events : list Event) :
  forall s s',
    well_formed s ->
    handle_events fuel events s = Running s' ->
    well_formed s'.
Proof.
  induction events as [|ev rest IH]; intros s s' Hc E;
    cbn [handle_events] in E.
  - injection E as <-. exact Hc.
  - destruct ev as [|[| |]|]; try discriminate E;
      try (apply (IH s s' Hc E)).
    destruct (keydown_r fuel s) as [s2|] eqn:Ek; [|discriminate E].
    apply (IH s2 s'); [|exact E].
    unfold keydown_r in Ek.
    destruct (game_over s || game_won s).
    + apply consistent_well_formed.
      apply (new_session_is_consistent fuel (rng s) s2 Ek).
    + injection Ek as <-. exact Hc.
Qed.

(** Every pass of the loop that goes on keeps the session well formed
    (the events, a restart if there is one, then the frame); and with a
    fair source of draws the pass does end, in an exit or in a session.
    Stated for a time step from 0 to [MAX_DT]. *)
Theorem loop_pass_keeps_well_formed
  (dt : Q) (events : list Event) (keys : Keys) (s : Session) :
  well_formed s -> (0 <= dt)%Q -> (dt <= MAX_DT)%Q ->
  (forall fuel s',
     loop_pass fuel dt events keys s = Running s' -> well_formed s') /\
  (fair_source (raw (rng s)) ->
   exists fuel,
     loop_pass fuel dt events keys s = Exited \/
     exists s', loop_pass fuel dt events keys s = Running s').
Proof.
  intros Hc Hd Hm. split; [|apply loop_pass_ends].
  intros fuel s' Hpass. unfold loop_pass in Hpass.
  destruct (handle_events fuel events s) as [|s1|] eqn:E;
    try discriminate Hpass.
  injection Hpass as <-.
  apply frame_well_formed; [|exact Hd].
  apply (handle_events_well_formed fuel events s s1 Hc E).
Qed.

End Events.

Lemma events_while_playing_witness :
  @handle_events sample_libm 0
    [KEYDOWN K_r; OtherEvent; KEYDOWN K_ESCAPE] midgame_session = Exited /\
  @handle_events sample_libm 0
    [KEYDOWN K_r; KEYDOWN K_other] midgame_session = Running midgame_session.
Proof.
  split.
  - apply (@events_while_playing sample_libm 0
             [KEYDOWN K_r; OtherEvent; KEYDOWN K_ESCAPE] midgame_session).
    split; reflexivity.
  - apply (@events_while_playing sample_libm 0
             [KEYDOWN K_r; KEYDOWN K_other] midgame_session).
    split; reflexivity.
Defined.

Lemma restart_key_restarts_once_witness :
  (forall fuel s',
     @handle_events sample_libm fuel
       [KEYDOWN K_other; KEYDOWN K_r; KEYDOWN K_r] lost_session = Running s' ->
     @new_session sample_libm fuel (rng lost_session) = Some s') /\
  (exists fuel,
     @handle_events sample_libm fuel
       [KEYDOWN K_other; KEYDOWN K_r; KEYDOWN K_r] lost_session = Exited \/
     exists s',
       @handle_events sample_libm fuel
         [KEYDOWN K_other; KEYDOWN K_r; KEYDOWN K_r] lost_session
       = Running s').
Proof.
  destruct (@restart_key_restarts_once sample_libm
              [KEYDOWN K_other; KEYDOWN K_r; KEYDOWN K_r] lost_session)
    as [Hsound Hends].
  - left. reflexivity.
  - right. left. reflexivity.
  - split; [exact Hsound|apply Hends; exact stubborn_source_fair].
Defined.

Lemma restart_pass_plays_a_frame_witness :
  (forall fuel s',
     @loop_pass sample_libm fuel (1 # 60) [KEYDOWN K_r] no_keys lost_session
       = Running s' ->
     (elapsed_survival s' == 1 # 60)%Q /\ (time_left s' <= 45)%Q /\
     score s' = py_int (elapsed_survival s')) /\
  (exists fuel,
     @loop_pass sample_libm fuel (1 # 60) [KEYDOWN K_r] no_keys lost_session
       = Exited \/
     exists s',
       @loop_pass sample_libm fuel (1 # 60) [KEYDOWN K_r] no_keys lost_session
       = Running s').
Proof.
  destruct (@restart_pass_plays_a_frame sample_libm (1 # 60)
              [KEYDOWN K_r] no_keys lost_session) as [Hsound Hends].
  - left. reflexivity.
  - left. reflexivity.
  - vm_compute. discriminate.
  - vm_compute. discriminate.
  - split; [exact Hsound|apply Hends; exact stubborn_source_fair].
Defined.

Lemma lost_well_formed : well_formed lost_session.
Proof.
  unfold well_formed, size_40, Player.inside_playfield, Enemy.contained.
  cbn [lost_session player enemy coins elapsed_survival time_left
       Player.rect left top width height Enemy.x Enemy.y].
  repeat split; try lia; try reflexivity; try (vm_compute; discriminate).
  repeat constructor; cbn; lia.
Qed.

Lemma loop_pass_keeps_well_formed_witness :
  (forall fuel s',
     @loop_pass sample_libm fuel (1 # 60) [OtherEvent; KEYDOWN K_r]
       right_only lost_session = Running s' ->
     well_formed s') /\
  (exists fuel,
     @loop_pass sample_libm fuel (1 # 60) [OtherEvent; KEYDOWN K_r]
       right_only lost_session = Exited \/
     exists s',
       @loop_pass sample_libm fuel (1 # 60) [OtherEvent; KEYDOWN K_r]
         right_only lost_session = Running s').
Proof.
  destruct (@loop_pass_keeps_well_formed sample_libm (1 # 60)
              [OtherEvent; KEYDOWN K_r] right_only lost_session)
    as [Hsound Hends].
  - exact lost_well_formed.
  - vm_compute. discriminate.
  - vm_compute. discriminate.
  - split; [exact Hsound|apply Hends; exact stubborn_source_fair].
Defined.

(** ** What is drawn *)

Lemma py_int_between (a b : Z) (q : Q) :
  0 <= a -> (inject_Z a <= q)%Q -> (q <= inject_Z b)%Q ->
  a <= py_int q <= b.
Proof.
  intros Ha H1 H2.
  assert (H0 : (0 <= q)%Q).
  { apply Qle_trans with (y := inject_Z a); [|exact H1].
    change 0%Q with (inject_Z 0). rewrite <- Zle_Qle. exact Ha. }
  rewrite (py_int_floor q H0).
  pose proof (Qfloor_resp_le _ _ H1) as F1.
  pose proof (Qfloor_resp_le _ _ H2) as F2.
  rewrite Qfloor_Z in F1, F2. lia.
Qed.

Lemma coins_drawn_on_screen (cs : list Coin.t) :
  Forall in_margin cs -> Forall on_screen (flat_map Coin.draw cs).
Proof.
  induction 1 as [|c rest Hc _ IH]; cbn [flat_map]; [constructor|].
  apply Forall_app. split; [|exact IH].
  unfold Coin.draw. destruct (negb (Coin.collected c)); [|constructor].
  constructor; [|constructor].
  unfold in_margin in Hc. unfold on_screen, COIN_RADIUS, SCREEN_WIDTH,
    SCREEN_HEIGHT. lia.
Qed.

Lemma coins_drawn_count (cs : list Coin.t) :
  Z.of_nat (length (flat_map Coin.draw cs)) =
  Z.of_nat (length cs) - count_collected cs.
Proof.
  unfold count_collected.
  induction cs as [|c rest IH]; cbn [flat_map filter length]; [reflexivity|].
  rewrite length_app. unfold Coin.draw at 1.
  destruct (Coin.collected c); cbn [negb length]; lia.
Qed.

(** In a consistent session everything the loop draws for the entities
    lies on the 800 x 600 screen (each coin circle, the square of the
    player, the circle of the enemy at its truncated centre), and it draws
    one shape for each uncollected coin, one for the player and one for
    the enemy. *)
Theorem entities_drawn_on_screen (s : Session) :
  consistent s ->
  Forall on_screen (draw_entities s) /\
  Z.of_nat (length (draw_entities s)) = 5 - count_collected (coins s) + 2.
Proof.
  intros [Hsz [Hin [Hen [Hlen [Hmar _]]]]]. split.
  - unfold draw_entities. apply Forall_app. split;
      [apply coins_drawn_on_screen; exact Hmar|].
    apply Forall_app. split.
    + unfold Player.draw. constructor; [|constructor].
      destruct Hsz as [Hw Hh]. unfold Player.inside_playfield in Hin.
      unfold on_screen, right, bottom, SCREEN_WIDTH, SCREEN_HEIGHT. lia.
    + unfold Enemy.draw. constructor; [|constructor].
      destruct Hen as [Hx1 [Hx2 [Hy1 Hy2]]].
      pose proof (py_int_between 25 775 (Enemy.x (enemy s))
                    ltac:(lia) Hx1 Hx2).
      pose proof (py_int_between 25 575 (Enemy.y (enemy s))
                    ltac:(lia) Hy1 Hy2).
      unfold on_screen, ENEMY_RADIUS, SCREEN_WIDTH, SCREEN_HEIGHT. lia.
  - unfold draw_entities. rewrite !length_app, !Nat2Z.inj_add.
    rewrite coins_drawn_count, Hlen. cbn. lia.
Qed.

Lemma entities_drawn_on_screen_witness :
  Forall on_screen (draw_entities midgame_session) /\
  Z.of_nat (length (draw_entities midgame_session)) =
  5 - count_collected (coins midgame_session) + 2.
Proof.
  apply (entities_drawn_on_screen midgame_session).
  exact midgame_consistent.
Defined.

(** The time shown on the screen is never negative, and in a well-formed
    session it is at most 45. *)
Theorem hud_time_range (s : Session) :
  well_formed s -> 0 <= hud_time s <= 45.
Proof.
  intros [_ [_ [_ [_ [_ [_ [_ [Htl _]]]]]]]].
  unfold hud_time, py_max. cbn [ltb PyOrd_Q].
  destruct (Qltb 0 (time_left s)) eqn:E.
  - apply Qltb_lt in E. assert (H0 : (0 <= time_left s)%Q) by lra.
    split; [apply (py_int_nonneg _ H0)|].
    rewrite (py_int_floor _ H0).
    apply Qfloor_resp_le in Htl. exact Htl.
  - split; discriminate.
Qed.

Lemma hud_time_range_witness : 0 <= hud_time midgame_session <= 45.
Proof.
  apply (hud_time_range midgame_session). exact midgame_well_formed.
Defined.
